(** * Link2Ink: progress animator, log simulator, history store, shortcuts

  A shallow embedding of the stateful parts of the Link2Ink client:

  - [LoadingState] (the loading visualisation): the stage-message to
    target-tier effect, the smoothing tick of the progress ring and the
    decorative log simulator;
  - [ArticleToInfographic.handleGenerate]: what a finished generation
    request does to the component state and to the history;
  - [App]: the lazily loaded and persisted history lists and the global
    keyboard shortcut handler.

  React state is modelled by explicit state passing: a [useState] cell is
  a record field, a state updater [setX (prev => e)] is a function of the
  previous value, and an effect is a function run after the render whose
  dependencies changed.  JavaScript exceptions are modelled by the error
  monad [Exc].  JavaScript numbers are modelled by exact rationals [Q]. *)

From Stdlib Require Import ZArith QArith Qabs Qround Qpower Lqa String Ascii List
  Sorted.
From stdpp Require Import base gmap strings list sorting pretty.

Local Open Scope Z_scope.

(** ** JavaScript strings

  A string is a sequence of code units; [ascii] covers the code units
  U+0000 to U+00FF. *)
Module JsString.

(** [String.prototype.toLowerCase] on one code unit: the letters A-Z and
    the Latin-1 capitals U+00C0 to U+00DE (without the multiplication sign
    U+00D7) move up by 32, everything else is kept. *)
Definition lower_unit (c : ascii) : ascii :=
  let n := N_of_ascii c in
  if (((65 <=? n) && (n <=? 90)) ||
      ((192 <=? n) && (n <=? 222) && negb (n =? 215)))%N
  then ascii_of_N (n + 32) else c.

Fixpoint toLowerCase (s : string) : string :=
  match s with
  | EmptyString => EmptyString
  | String c s' => String (lower_unit c) (toLowerCase s')
  end.

(** [s.includes(sub)]: [sub] occurs in [s] at some position. *)
Fixpoint includes (s sub : string) : bool :=
  String.prefix sub s ||
  match s with
  | EmptyString => false
  | String _ s' => includes s' sub
  end.

(** The code units that [String.prototype.trim] strips. *)
Definition is_white (c : ascii) : bool :=
  let n := N_of_ascii c in
  (((9 <=? n) && (n <=? 13)) || (n =? 32) || (n =? 160))%N.

Fixpoint trimStart (s : string) : string :=
  match s with
  | EmptyString => EmptyString
  | String c s' => if is_white c then trimStart s' else s
  end.

Definition trim (s : string) : string :=
  String.rev (trimStart (String.rev (trimStart s))).

End JsString.

(** ** The loading visualisation *)
Module LoadingState.
Import JsString.

(** *** Smart progress: stage message to target tier *)

(** The body of the effect: the new value of [targetProgress.current]. *)
Definition smartProgress (message : string) (targetProgress : Q) : Q :=
  let lowerMsg := toLowerCase message in
  if includes lowerMsg "connect" || includes lowerMsg "fetch" ||
     includes lowerMsg "read" || includes lowerMsg "init"
  then 35%Q
  else if includes lowerMsg "analyz" || includes lowerMsg "research" ||
          includes lowerMsg "pars" || includes lowerMsg "struct"
  then 70%Q
  else if includes lowerMsg "generat" || includes lowerMsg "render" ||
          includes lowerMsg "design" || includes lowerMsg "transform"
  then 98%Q
  else targetProgress.

(** The part of a mounted component the effect touches: the message its
    last run saw ([None] before the first render) and the ref. *)
Record Stage := { lastMessage : option string; targetProgress : Q }.

(** [useState(0)] and [useRef(10)]. *)
Definition initialProgress : Q := 0%Q.
Definition initialTarget : Q := 10%Q.

Definition mount (target : Q) : Stage :=
  {| lastMessage := None; targetProgress := target |}.

(** [useEffect(..., [message])]: the effect runs after the first render
    and after every render whose message differs from the previous one. *)
Definition depsChanged (st : Stage) (message : string) : bool :=
  match lastMessage st with
  | None => true
  | Some m => negb (String.eqb m message)
  end.

Definition render (st : Stage) (message : string) : Stage :=
  if depsChanged st message
  then {| lastMessage := Some message;
          targetProgress := smartProgress message (targetProgress st) |}
  else st.

(** The target after each render of a sequence of messages. *)
Fixpoint targets (st : Stage) (messages : list string) : list Q :=
  match messages with
  | [] => []
  | m :: ms => let st' := render st m in targetProgress st' :: targets st' ms
  end.

(** *** The classification in the words of the specification *)

Definition bucket35 : list string := ["connect"; "fetch"; "read"; "init"].
Definition bucket70 : list string := ["analyz"; "research"; "pars"; "struct"].
Definition bucket98 : list string := ["generat"; "render"; "design"; "transform"].

(** [message] contains [kw], whatever the case of its letters. *)
Definition containsCI (message kw : string) : Prop :=
  exists pre mid post,
    message = pre +:+ mid +:+ post /\ toLowerCase mid = toLowerCase kw.

Definition containsAny (bucket : list string) (message : string) : Prop :=
  exists kw, In kw bucket /\ containsCI message kw.

(** First matching bucket wins; [None] is "target unchanged". *)
Inductive classify (message : string) : option Q -> Prop :=
| classify35 :
    containsAny bucket35 message -> classify message (Some 35%Q)
| classify70 :
    ~ containsAny bucket35 message -> containsAny bucket70 message ->
    classify message (Some 70%Q)
| classify98 :
    ~ containsAny bucket35 message -> ~ containsAny bucket70 message ->
    containsAny bucket98 message -> classify message (Some 98%Q)
| classifyNone :
    ~ containsAny bucket35 message -> ~ containsAny bucket70 message ->
    ~ containsAny bucket98 message -> classify message None.

(** The target sequence the specification prescribes: each message is
    classified on its own, an unmatched one keeps the previous target. *)
Inductive tierSequence : Q -> list string -> list Q -> Prop :=
| tiers_nil prev : tierSequence prev [] []
| tiers_match prev m ms t ts :
    classify m (Some t) -> tierSequence t ms ts ->
    tierSequence prev (m :: ms) (t :: ts)
| tiers_keep prev m ms ts :
    classify m None -> tierSequence prev ms ts ->
    tierSequence prev (m :: ms) (prev :: ts).

(** The test of one branch of the effect, as a search through a bucket. *)
Definition matches (bucket : list string) (message : string) : bool :=
  existsb (includes (toLowerCase message)) bucket.

(** Between renders the ref holds a value the effect of the last message
    would leave alone. *)
Definition settled (st : Stage) : Prop :=
  forall m, lastMessage st = Some m ->
            smartProgress m (targetProgress st) = targetProgress st.

(** *** Smooth progress animation *)

(** What is rendered: [Math.round(progress)] percent. *)
Definition percentComplete (progress : Q) : Z := Qfloor (progress + 0.5).

(** The state updater of one tick of the 30 ms interval; [target] is
    [targetProgress.current] at that moment. *)
Definition tick (target prev : Q) : Q :=
  let diff := (target - prev)%Q in
  if Qlt_le_dec (Qabs diff) 0.5 then prev
  else (prev + diff * 0.05)%Q.

(** [n] ticks under a target that stays put. *)
Fixpoint ticks (n : nat) (target prev : Q) : Q :=
  match n with
  | O => prev
  | S n' => ticks n' target (tick target prev)
  end.

(** One tick per element of [targets], the value of the ref at that tick;
    the result lists the displayed value after each tick. *)
Fixpoint animate (targets : list Q) (prev : Q) : list Q :=
  match targets with
  | [] => []
  | t :: ts => let p := tick t prev in p :: animate ts p
  end.

(** *** Log simulator *)

Inductive Kind := repo | article.

Definition logPrefix (type : Kind) : string :=
  match type with repo => "git" | article => "web" end.

Definition tasks (type : Kind) : list string :=
  match type with
  | repo =>
      ["Fetching remote tree object...";
       "Parsing Abstract Syntax Tree...";
       "Mapping dependency graph...";
       "Identifying structural hotspots...";
       "Vectorizing node positions...";
       "Calculating force-directed layout...";
       "Optimizing render pipeline...";
       "Compiling WebGL assets...";
       "Finalizing lightmap bake..."]
  | article =>
      ["Resolving DNS headers...";
       "Scraping DOM structure...";
       "Extracting semantic entities...";
       "Analyzing content density...";
       "Synthesizing visual metaphors...";
       "Determining optimal layout...";
       "Rasterizing vector layers...";
       "Applying style transfer...";
       "Generating final composite..."]
  end.

(** The window set when the effect starts. *)
Definition initialLogs (type : Kind) : list string :=
  ["> initializing " +:+ logPrefix type +:+ "_module..."].

Definition digit (d : Z) : ascii := ascii_of_N (48 + Z.to_N d).

(** Two decimal digits, as [toISOString] pads hours, minutes, seconds. *)
Definition twoDigits (n : Z) : string :=
  String (digit (n / 10)) (String (digit (n mod 10)) EmptyString).

Definition msPerDay : Z := 86400000.

(** The second of the UTC day at clock reading [now], in milliseconds
    since the epoch. *)
Definition secondOfDay (now : Z) : Z := (now mod msPerDay) / 1000.

(** [new Date().toISOString().split('T')[1].split('.')[0]]: the UTC time
    of day, HH:MM:SS. *)
Definition timestamp (now : Z) : string :=
  let s := secondOfDay now in
  twoDigits (s / 3600) +:+ ":" +:+ twoDigits (s / 60 mod 60) +:+ ":" +:+
  twoDigits (s mod 60).

(** [tasks[i]]; beyond the pool the lookup is [undefined], which the
    template literal prints as such. *)
Definition taskAt (type : Kind) (i : Z) : string :=
  if i <? 0 then "undefined"
  else nth (Z.to_nat i) (tasks type) "undefined".

Definition logLine (now : Z) (nextLog : string) : string :=
  "[" +:+ timestamp now +:+ "] " +:+ nextLog +:+ " ... OK".

(** [newLogs.slice(newLogs.length - 5)]. *)
Definition lastFive (newLogs : list string) : list string :=
  drop (length newLogs - 5)%nat newLogs.

(** The state updater of one tick of the 600 ms interval.  [r1] and [r2]
    are the two [Math.random()] samples, [now] the clock reading.  A
    double sample exceeds the double 0.7 exactly when it exceeds 7/10. *)
Definition logTick (type : Kind) (r1 r2 : Q) (now : Z)
    (prev : list string) : list string :=
  if Qlt_le_dec 0.7 r1 then prev
  else
    let nextLog :=
      taskAt type (Qfloor (r2 * inject_Z (Z.of_nat (length (tasks type))))) in
    let newLogs := prev ++ [logLine now nextLog] in
    if (5 <? length newLogs)%nat then lastFive newLogs else newLogs.

(** What happens to the window: the effect (re)starts, or the interval
    fires. *)
Inductive LogOp :=
| LogStart
| LogTick (r1 r2 : Q) (now : Z).

Definition logStep (type : Kind) (logs : list string) (op : LogOp)
    : list string :=
  match op with
  | LogStart => initialLogs type
  | LogTick r1 r2 now => logTick type r1 r2 now logs
  end.

(** [useState<string[]>([])], then the operations in order. *)
Definition logRun (type : Kind) (ops : list LogOp) : list string :=
  fold_left (logStep type) ops [].

(** The clock readings of the ticks of a run that append a line. *)
Definition appendClocks (ops : list LogOp) : list Z :=
  omap (fun op => match op with
                  | LogTick r1 _ now =>
                      if Qlt_le_dec 0.7 r1 then None else Some now
                  | LogStart => None
                  end) ops.

Definition digitValue (c : ascii) : Z := Z.of_N (N_of_ascii c) - 48.

(** The second of the day a line is stamped with, read back from its
    text; [None] for a line that does not start with a stamp. *)
Definition stampOf (line : string) : option Z :=
  match line with
  | String "[" (String h1 (String h2 (String ":" (String m1 (String m2
      (String ":" (String s1 (String s2 (String "]" _))))))))) =>
      Some ((10 * digitValue h1 + digitValue h2) * 3600 +
            (10 * digitValue m1 + digitValue m2) * 60 +
            (10 * digitValue s1 + digitValue s2))
  | _ => None
  end.

Definition stamps (logs : list string) : list Z := omap stampOf logs.

(** *** The samplers as finite uniform draws

    [Math.random()] is taken uniform over the grid k/N, k = 0 .. N-1. *)
Definition grid (N : nat) : list Q :=
  map (fun k => inject_Z (Z.of_nat k) / inject_Z (Z.of_nat N))%Q (seq 0 N).

(** How many of the [N] samples make a tick do nothing. *)
Definition doNothingCount (N : nat) : nat :=
  length (filter (fun r => logTick article r 0 0 [] = []) (grid N)).

(** How many of the [N] samples draw the task at index [i]. *)
Definition drawCount (type : Kind) (N : nat) (i : Z) : nat :=
  length (filter (fun r =>
                    Qfloor (r * inject_Z (Z.of_nat (length (tasks type)))) = i)
                 (grid N)).

End LoadingState.

(** ** JavaScript values and exceptions *)
Module Js.

Inductive Error :=
| TypeError
| SyntaxError
| SecurityError
| QuotaExceededError
| OtherError (message : string).

(** The outcome of an expression: a value, or a thrown error. *)
Inductive Exc (A : Type) :=
| Ok (a : A)
| Throw (e : Error).
Arguments Ok {A} a.
Arguments Throw {A} e.

(** What [JSON.parse] can return, and [Date] objects on top of it; the
    time of a [Date] is [None] when it is invalid. *)
#[warnings="-register-all"]
Inductive Value :=
| VUndefined
| VNull
| VBool (b : bool)
| VNum (n : Z)
| VStr (s : string)
| VArr (items : list Value)
| VObj (props : list (string * Value))
| VDate (time : option Z).

(** [o[name]] on the own properties of an object literal. *)
Fixpoint lookupProp (props : list (string * Value)) (name : string) : Value :=
  match props with
  | [] => VUndefined
  | (k, v) :: rest => if String.eqb k name then v else lookupProp rest name
  end.

(** [o[name] = v]: an existing property keeps its place. *)
Fixpoint setProp (props : list (string * Value)) (name : string) (v : Value)
    : list (string * Value) :=
  match props with
  | [] => [(name, v)]
  | (k, w) :: rest =>
      if String.eqb k name then (k, v) :: rest
      else (k, w) :: setProp rest name v
  end.

(** [value.name]: reading a property of [null] or [undefined] throws;
    arrays, strings, numbers, booleans and dates have no property of the
    names used here. *)
Definition getProp (value : Value) (name : string) : Exc Value :=
  match value with
  | VUndefined | VNull => Throw TypeError
  | VObj props => Ok (lookupProp props name)
  | _ => Ok VUndefined
  end.

Fixpoint indexed (i : nat) (items : list Value) : list (string * Value) :=
  match items with
  | [] => []
  | v :: rest => (pretty i, v) :: indexed (S i) rest
  end.

Fixpoint units (s : string) : list Value :=
  match s with
  | EmptyString => []
  | String c s' => VStr (String c EmptyString) :: units s'
  end.

(** The own enumerable properties [{...value}] copies. *)
Definition spread (value : Value) : list (string * Value) :=
  match value with
  | VObj props => props
  | VArr items => indexed 0 items
  | VStr s => indexed 0 (units s)
  | _ => []
  end.

(** A string in a condition: the empty string is falsy. *)
Definition truthy (s : string) : bool :=
  negb (String.eqb s EmptyString).

End Js.

(** ** A storage area with a quota

    The behaviour of [localStorage] the code relies on: reads and writes
    throw when access is denied, a write throws when it would exceed the
    quota and otherwise replaces the value under the key. *)
Module LocalStorage.
Import Js.

Record Area := {
  entries : gmap string string;
  quota : nat;
  denied : bool
}.

Definition footprint (entries : gmap string string) : nat :=
  map_fold (fun k v n => (String.length k + String.length v + n)%nat)
    0%nat entries.

Definition getItem (area : Area) (key : string) : Exc (option string) :=
  if denied area then Throw SecurityError else Ok (entries area !! key).

Definition setItem (area : Area) (key value : string) : Exc Area :=
  if denied area then Throw SecurityError
  else
    let entries' := <[key := value]> (entries area) in
    if (quota area <? footprint entries')%nat then Throw QuotaExceededError
    else Ok {| entries := entries'; quota := quota area;
               denied := denied area |}.

End LocalStorage.

(** ** The application shell: session gate, views, history, shortcuts *)
Module App.
Import Js.

Inductive ViewMode := HOME | REPO_ANALYZER | ARTICLE_INFOGRAPHIC.

(** The [useState] cells of [App]. *)
Record State := {
  currentView : ViewMode;
  showIntro : bool;
  hasApiKey : bool;
  checkingKey : bool;
  repoHistory : list Value;
  articleHistory : list Value
}.

(** *** Global keyboard shortcuts *)

Record KeyboardEvent := {
  altKey : bool;
  ctrlKey : bool;
  metaKey : bool;
  shiftKey : bool;
  key : string
}.

(** What the handler does, in order. *)
Inductive Action :=
| PreventDefault
| SetCurrentView (view : ViewMode).

Definition handleKeyDown (st : State) (e : KeyboardEvent) : list Action :=
  if negb (hasApiKey st) || showIntro st then []
  else if altKey e && negb (ctrlKey e) && negb (metaKey e) &&
          negb (shiftKey e)
  then
    if String.eqb (key e) "1" then [PreventDefault; SetCurrentView HOME]
    else if String.eqb (key e) "2"
    then [PreventDefault; SetCurrentView REPO_ANALYZER]
    else if String.eqb (key e) "3"
    then [PreventDefault; SetCurrentView ARTICLE_INFOGRAPHIC]
    else []
  else [].

Definition setCurrentView (view : ViewMode) (st : State) : State :=
  {| currentView := view; showIntro := showIntro st;
     hasApiKey := hasApiKey st; checkingKey := checkingKey st;
     repoHistory := repoHistory st; articleHistory := articleHistory st |}.

Definition setShowIntro (b : bool) (st : State) : State :=
  {| currentView := currentView st; showIntro := b;
     hasApiKey := hasApiKey st; checkingKey := checkingKey st;
     repoHistory := repoHistory st; articleHistory := articleHistory st |}.

Definition setHasApiKey (b : bool) (st : State) : State :=
  {| currentView := currentView st; showIntro := showIntro st;
     hasApiKey := b; checkingKey := checkingKey st;
     repoHistory := repoHistory st; articleHistory := articleHistory st |}.

Definition setCheckingKey (b : bool) (st : State) : State :=
  {| currentView := currentView st; showIntro := showIntro st;
     hasApiKey := hasApiKey st; checkingKey := b;
     repoHistory := repoHistory st; articleHistory := articleHistory st |}.

Definition setRepoHistory (f : list Value -> list Value) (st : State) : State :=
  {| currentView := currentView st; showIntro := showIntro st;
     hasApiKey := hasApiKey st; checkingKey := checkingKey st;
     repoHistory := f (repoHistory st); articleHistory := articleHistory st |}.

Definition setArticleHistory (f : list Value -> list Value) (st : State) : State :=
  {| currentView := currentView st; showIntro := showIntro st;
     hasApiKey := hasApiKey st; checkingKey := checkingKey st;
     repoHistory := repoHistory st; articleHistory := f (articleHistory st) |}.

Definition perform (st : State) (a : Action) : State :=
  match a with
  | PreventDefault => st
  | SetCurrentView view => setCurrentView view st
  end.

(** The state after a key-down event, and whether the browser default
    was suppressed. *)
Definition keyDown (st : State) (e : KeyboardEvent) : State * bool :=
  let actions := handleKeyDown st e in
  (fold_left perform actions st,
   existsb (fun a => match a with PreventDefault => true | _ => false end)
     actions).

(** *** The session gate *)

(** [checkKey]: the probe is [None] when the bridge is absent, else the
    value [hasSelectedApiKey] resolved to. *)
Definition checkKey (probe : option bool) (st : State) : State :=
  setCheckingKey false
    (match probe with
     | Some has => setHasApiKey has st
     | None => setHasApiKey false st
     end).

Definition onKeySelected (st : State) : State := setHasApiKey true st.
Definition onReauthRequested (st : State) : State := setHasApiKey false st.
Definition handleIntroComplete (st : State) : State := setShowIntro false st.
Definition handleNavigate (mode : ViewMode) (st : State) : State :=
  setCurrentView mode st.

Definition handleAddRepoHistory (item : Value) (st : State) : State :=
  setRepoHistory (fun prev => item :: prev) st.

Definition handleAddArticleHistory (item : Value) (st : State) : State :=
  setArticleHistory (fun prev => item :: prev) st.

(** The gate of the specification, read off the two flags. *)
Inductive SessionCapability := Checking | Locked | Unlocked.

Definition gate (st : State) : SessionCapability :=
  if checkingKey st then Checking
  else if hasApiKey st then Unlocked else Locked.

(** The shortcut table of the specification. *)
Definition shortcutTable : list (string * ViewMode) :=
  [("1", HOME); ("2", REPO_ANALYZER); ("3", ARTICLE_INFOGRAPHIC)].

(** [e] is exactly the designated modifier plus the digit mapped to
    [view]. *)
Definition isShortcut (e : KeyboardEvent) (view : ViewMode) : Prop :=
  altKey e = true /\ ctrlKey e = false /\ metaKey e = false /\
  shiftKey e = false /\ In (key e, view) shortcutTable.

(** What can happen to the shell. *)
Inductive Event :=
| ProbeResolved (probe : option bool)
| KeySelected
| ReauthRequested
| IntroComplete
| Navigate (mode : ViewMode)
| KeyPressed (e : KeyboardEvent)
| RepoAdded (item : Value)
| ArticleAdded (item : Value).

Definition step (st : State) (ev : Event) : State :=
  match ev with
  | ProbeResolved probe => checkKey probe st
  | KeySelected => onKeySelected st
  | ReauthRequested => onReauthRequested st
  | IntroComplete => handleIntroComplete st
  | Navigate mode => handleNavigate mode st
  | KeyPressed e => fst (keyDown st e)
  | RepoAdded item => handleAddRepoHistory item st
  | ArticleAdded item => handleAddArticleHistory item st
  end.

(** The initial cells, given the two lazily loaded histories. *)
Definition initialState (repo article : list Value) : State :=
  {| currentView := HOME; showIntro := true; hasApiKey := false;
     checkingKey := true; repoHistory := repo; articleHistory := article |}.

(** The key-selection modal is only rendered once the check is over. *)
Definition enabled (st : State) (ev : Event) : Prop :=
  match ev with
  | KeySelected => checkingKey st = false
  | _ => True
  end.

Inductive reachable : State -> Prop :=
| reachable_init repo article : reachable (initialState repo article)
| reachable_step st ev :
    reachable st -> enabled st ev -> reachable (step st ev).

(** *** History persistence *)
Section Host.

(** The browser's storage, JSON and [Date], taken as given.  [new Date(v)]
    gives a time value, [None] for an invalid date, or throws (a [TypeError]
    when [v] is an object with no callable [toString] or [valueOf]). *)
Context {Storage : Type}.
Variable storage_getItem : Storage -> string -> Exc (option string).
Variable storage_setItem : Storage -> string -> string -> Exc Storage.
Variable JSON_parse : string -> Exc Value.
Variable JSON_stringify : list Value -> Exc string.
Variable Date_new : Value -> Exc (option Z).

(** What the code acts on besides its own state: the storage and the
    warnings written to the console. *)
Record World := { localStorage : Storage; warnings : list (string * Error) }.

(** A statement: it runs in a world and returns or throws. *)
Definition M (A : Type) : Type := World -> Exc A * World.

Definition ret {A : Type} (a : A) : M A := fun w => (Ok a, w).

Definition bind {A B : Type} (m : M A) (k : A -> M B) : M B :=
  fun w => match m w with
           | (Ok a, w') => k a w'
           | (Throw e, w') => (Throw e, w')
           end.

Definition lift {A : Type} (x : Exc A) : M A := fun w => (x, w).

(** [try { body } catch (e) { handler }]. *)
Definition tryCatch {A : Type} (body : M A) (handler : Error -> M A) : M A :=
  fun w => match body w with
           | (Ok a, w') => (Ok a, w')
           | (Throw e, w') => handler e w'
           end.

Definition getItem (key : string) : M (option string) :=
  fun w => (storage_getItem (localStorage w) key, w).

Definition setItem (key value : string) : M unit :=
  fun w => match storage_setItem (localStorage w) key value with
           | Ok s' => (Ok tt, {| localStorage := s'; warnings := warnings w |})
           | Throw e => (Throw e, w)
           end.

Definition console_warn (message : string) (e : Error) : M unit :=
  fun w => (Ok tt, {| localStorage := localStorage w;
                      warnings := warnings w ++ [(message, e)] |}).

(** [({ ...item, date: new Date(item.date) })]. *)
Definition revive (item : Value) : Exc Value :=
  match getProp item "date" with
  | Ok date =>
      match Date_new date with
      | Ok time => Ok (VObj (setProp (spread item) "date" (VDate time)))
      | Throw e => Throw e
      end
  | Throw e => Throw e
  end.

Fixpoint mapExc (f : Value -> Exc Value) (items : list Value)
    : Exc (list Value) :=
  match items with
  | [] => Ok []
  | v :: rest =>
      match f v with
      | Ok v' => match mapExc f rest with
                 | Ok rest' => Ok (v' :: rest')
                 | Throw e => Throw e
                 end
      | Throw e => Throw e
      end
  end.

(** [parsed.map(f)]: only arrays have [map]. *)
Definition arrayMap (f : Value -> Exc Value) (parsed : Value)
    : Exc (list Value) :=
  match parsed with
  | VArr items => mapExc f items
  | _ => Throw TypeError
  end.

(** The lazy initializer of a history cell.  The [try] block either
    returns the revived list or falls through to [return []]. *)
Definition loadHistory (key warning : string) : M (list Value) :=
  bind
    (tryCatch
       (bind (getItem key) (fun saved =>
          match saved with
          | Some text =>
              if truthy text then
                bind (lift (JSON_parse text)) (fun parsed =>
                bind (lift (arrayMap revive parsed)) (fun items =>
                ret (Some items)))
              else ret None
          | None => ret None
          end))
       (fun e => bind (console_warn warning e) (fun _ => ret None)))
    (fun returned =>
       match returned with
       | Some items => ret items
       | None => ret []
       end).

Definition repoKey : string := "link2ink_repo_history".
Definition articleKey : string := "link2ink_article_history".

Definition loadRepoHistory : M (list Value) :=
  loadHistory repoKey "Failed to load repo history from local storage".

Definition loadArticleHistory : M (list Value) :=
  loadHistory articleKey "Failed to load article history from local storage".

(** The persist effect of a history cell. *)
Definition persist (key warning : string) (history : list Value) : M unit :=
  tryCatch
    (bind (lift (JSON_stringify history)) (fun text => setItem key text))
    (fun e => console_warn warning e).

Definition persistRepo (st : State) : M unit :=
  persist repoKey
    "Failed to save repo history to local storage (likely quota exceeded)"
    (repoHistory st).

Definition persistArticle (st : State) : M unit :=
  persist articleKey
    "Failed to save article history to local storage (likely quota exceeded)"
    (articleHistory st).

(** Mounting [App]: both cells are initialised, then both persist
    effects run once. *)
Definition mountApp : M State :=
  bind loadRepoHistory (fun repo =>
  bind loadArticleHistory (fun article =>
  let st := initialState repo article in
  bind (persistRepo st) (fun _ =>
  bind (persistArticle st) (fun _ =>
  ret st)))).

(** [onAddToHistory(item)]: the cell changes, so after the render its
    persist effect runs. *)
Definition addRepoHistory (item : Value) (st : State) : M State :=
  let st' := handleAddRepoHistory item st in
  bind (persistRepo st') (fun _ => ret st').

Definition addArticleHistory (item : Value) (st : State) : M State :=
  let st' := handleAddArticleHistory item st in
  bind (persistArticle st') (fun _ => ret st').

End Host.

End App.

(** ** The article tool: one generation request *)
Module ArticleToInfographic.
Import Js JsString.

Definition SKETCH_STYLES : list string :=
  ["Modern Editorial"; "Fun & Playful"; "Clean Minimalist"; "Dark Mode Tech";
   "Custom"].

(** The [useState] cells of the component the handlers touch. *)
Record State := {
  urlInput : string;
  selectedStyle : string;
  selectedLanguage : string;
  customStyle : string;
  variationCount : Z;
  aspectRatio : string;
  loading : bool;
  images : list string;
  citations : list Value;
  error : option string;
  loadingStage : string
}.

Definition initialState : State :=
  {| urlInput := ""; selectedStyle := "Modern Editorial";
     selectedLanguage := "English"; customStyle := ""; variationCount := 1;
     aspectRatio := "1:1"; loading := false; images := []; citations := [];
     error := None; loadingStage := "" |}.

(** The arguments of [generateArticleInfographic], the stage callback
    apart. *)
Record Request := {
  reqUrl : string;
  reqStyle : string;
  reqLanguage : string;
  reqVariations : Z;
  reqRatio : string
}.

(** What was thrown, as far as the [catch] block looks at it: [null] or
    [undefined], or something with a [message] property or without. *)
Inductive Thrown :=
| ThrownNullish
| ThrownObject (message : option string).

(** How the awaited call ends: with a payload whose image list may be
    missing, or with a rejection. *)
Inductive Outcome :=
| Resolved (resultImages : option (list string)) (resultCitations : list Value)
| Rejected (err : Thrown).

Definition setError (e : option string) (st : State) : State :=
  {| urlInput := urlInput st; selectedStyle := selectedStyle st;
     selectedLanguage := selectedLanguage st; customStyle := customStyle st;
     variationCount := variationCount st; aspectRatio := aspectRatio st;
     loading := loading st; images := images st; citations := citations st;
     error := e; loadingStage := loadingStage st |}.

Definition setLoading (b : bool) (st : State) : State :=
  {| urlInput := urlInput st; selectedStyle := selectedStyle st;
     selectedLanguage := selectedLanguage st; customStyle := customStyle st;
     variationCount := variationCount st; aspectRatio := aspectRatio st;
     loading := b; images := images st; citations := citations st;
     error := error st; loadingStage := loadingStage st |}.

Definition setImages (imgs : list string) (st : State) : State :=
  {| urlInput := urlInput st; selectedStyle := selectedStyle st;
     selectedLanguage := selectedLanguage st; customStyle := customStyle st;
     variationCount := variationCount st; aspectRatio := aspectRatio st;
     loading := loading st; images := imgs; citations := citations st;
     error := error st; loadingStage := loadingStage st |}.

Definition setCitations (cites : list Value) (st : State) : State :=
  {| urlInput := urlInput st; selectedStyle := selectedStyle st;
     selectedLanguage := selectedLanguage st; customStyle := customStyle st;
     variationCount := variationCount st; aspectRatio := aspectRatio st;
     loading := loading st; images := images st; citations := cites;
     error := error st; loadingStage := loadingStage st |}.

Definition setLoadingStage (stage : string) (st : State) : State :=
  {| urlInput := urlInput st; selectedStyle := selectedStyle st;
     selectedLanguage := selectedLanguage st; customStyle := customStyle st;
     variationCount := variationCount st; aspectRatio := aspectRatio st;
     loading := loading st; images := images st; citations := citations st;
     error := error st; loadingStage := stage |}.

Definition setUrlInput (url : string) (st : State) : State :=
  {| urlInput := url; selectedStyle := selectedStyle st;
     selectedLanguage := selectedLanguage st; customStyle := customStyle st;
     variationCount := variationCount st; aspectRatio := aspectRatio st;
     loading := loading st; images := images st; citations := citations st;
     error := error st; loadingStage := loadingStage st |}.

Definition setSelectedStyle (style : string) (st : State) : State :=
  {| urlInput := urlInput st; selectedStyle := style;
     selectedLanguage := selectedLanguage st; customStyle := customStyle st;
     variationCount := variationCount st; aspectRatio := aspectRatio st;
     loading := loading st; images := images st; citations := citations st;
     error := error st; loadingStage := loadingStage st |}.

Definition setSelectedLanguage (language : string) (st : State) : State :=
  {| urlInput := urlInput st; selectedStyle := selectedStyle st;
     selectedLanguage := language; customStyle := customStyle st;
     variationCount := variationCount st; aspectRatio := aspectRatio st;
     loading := loading st; images := images st; citations := citations st;
     error := error st; loadingStage := loadingStage st |}.

Definition setCustomStyle (style : string) (st : State) : State :=
  {| urlInput := urlInput st; selectedStyle := selectedStyle st;
     selectedLanguage := selectedLanguage st; customStyle := style;
     variationCount := variationCount st; aspectRatio := aspectRatio st;
     loading := loading st; images := images st; citations := citations st;
     error := error st; loadingStage := loadingStage st |}.

Definition setVariationCount (n : Z) (st : State) : State :=
  {| urlInput := urlInput st; selectedStyle := selectedStyle st;
     selectedLanguage := selectedLanguage st; customStyle := customStyle st;
     variationCount := n; aspectRatio := aspectRatio st;
     loading := loading st; images := images st; citations := citations st;
     error := error st; loadingStage := loadingStage st |}.

Definition setAspectRatio (ratio : string) (st : State) : State :=
  {| urlInput := urlInput st; selectedStyle := selectedStyle st;
     selectedLanguage := selectedLanguage st; customStyle := customStyle st;
     variationCount := variationCount st; aspectRatio := ratio;
     loading := loading st; images := images st; citations := citations st;
     error := error st; loadingStage := loadingStage st |}.

(** [loadFromHistory(item)], for an item whose fields have the types the
    component expects. *)
Definition loadFromHistory (url : string) (imgs : list string)
    (cites : list Value) (st : State) : State :=
  setCitations cites (setImages imgs (setUrlInput url st)).

(** What can happen to the component while a request is out: the service
    reports a stage, or the user uses a control that stays enabled during
    loading: a history entry (its click handler is [loadFromHistory]), the
    URL field, the style, language, variation and ratio controls.  The
    submit button is disabled while [loading]. *)
Inductive Interaction :=
| StageReported (stage : string)
| HistoryClicked (url : string) (imgs : list string) (cites : list Value)
| UrlTyped (url : string)
| StyleSelected (style : string)
| CustomStyleTyped (style : string)
| LanguageSelected (language : string)
| VariationsSelected (n : Z)
| RatioSelected (ratio : string).

Definition interact (st : State) (i : Interaction) : State :=
  match i with
  | StageReported stage => setLoadingStage stage st
  | HistoryClicked url imgs cites => loadFromHistory url imgs cites st
  | UrlTyped url => setUrlInput url st
  | StyleSelected style => setSelectedStyle style st
  | CustomStyleTyped style => setCustomStyle style st
  | LanguageSelected language => setSelectedLanguage language st
  | VariationsSelected n => setVariationCount n st
  | RatioSelected ratio => setAspectRatio ratio st
  end.

(** The result section is rendered for [images.length > 0 && !loading],
    the citations inside it. *)
Definition shownImages (st : State) : list string :=
  if loading st then [] else images st.

Definition shownCitations (st : State) : list Value :=
  if loading st then []
  else match images st with [] => [] | _ => citations st end.

(** The images and citations of the history entry opened last, if one
    was. *)
Definition lastOpened (during : list Interaction)
    : option (list string * list Value) :=
  fold_left (fun acc i => match i with
                          | HistoryClicked _ imgs cites => Some (imgs, cites)
                          | _ => acc
                          end) during None.

Definition isStage (i : Interaction) : bool :=
  match i with StageReported _ => true | _ => false end.

(** Two states that differ at most in the stage text. *)
Definition sameButStage (s1 s2 : State) : Prop :=
  setLoadingStage "" s1 = setLoadingStage "" s2.

Definition failureMessage : string :=
  "Failed to generate infographic image. The URL might be inaccessible.".

(** [err.message || "An unexpected error occurred."]: reading [message]
    off [null] or [undefined] throws. *)
Definition messageOf (err : Thrown) : Exc string :=
  match err with
  | ThrownNullish => Throw TypeError
  | ThrownObject (Some m) =>
      Ok (if truthy m then m else "An unexpected error occurred.")
  | ThrownObject None => Ok "An unexpected error occurred."
  end.

Section Host.

(** [new URL(url).hostname], [None] where the constructor throws. *)
Variable URL_hostname : string -> option string.

(** The item [addToHistory] hands to [onAddToHistory]; [idNow] is the
    reading of [Date.now()], [dateNow] that of [new Date()]. *)
Definition addToHistory (idNow dateNow : Z) (url : string)
    (imgs : list string) (cites : list Value) : Value :=
  let title := match URL_hostname url with Some h => h | None => url end in
  VObj [("id", VStr (pretty idNow)); ("title", VStr title); ("url", VStr url);
        ("images", VArr (map VStr imgs)); ("citations", VArr cites);
        ("date", VDate (Some dateNow))].

(** [handleGenerate] up to the [await]: the new state and, unless the
    input is rejected, the request that goes out. *)
Definition submit (st : State) : State * option Request :=
  if negb (truthy (trim (urlInput st)))
  then (setError (Some "Please provide a valid URL.") st, None)
  else
    (setLoadingStage "INITIALIZING..."
       (setCitations [] (setImages [] (setError None (setLoading true st)))),
     Some {| reqUrl := urlInput st;
             reqStyle := if String.eqb (selectedStyle st) "Custom"
                         then customStyle st else selectedStyle st;
             reqLanguage := selectedLanguage st;
             reqVariations := variationCount st;
             reqRatio := aspectRatio st |}).

(** The [finally] block. *)
Definition finish (st : State) : State :=
  setLoadingStage "" (setLoading false st).

(** The [try] block after the [await]: the new state, the item handed to
    [onAddToHistory] if any, and what was thrown if anything.  [url] is the
    input the handler was started with. *)
Definition tryBlock (idNow dateNow : Z) (url : string) (outcome : Outcome)
    (st : State) : State * option Value * option Thrown :=
  match outcome with
  | Resolved (Some (img :: imgs)) cites =>
      (setCitations cites (setImages (img :: imgs) st),
       Some (addToHistory idNow dateNow url (img :: imgs) cites),
       None)
  | Resolved _ _ => (st, None, Some (ThrownObject (Some failureMessage)))
  | Rejected err => (st, None, Some err)
  end.

(** [handleGenerate] after the [await], with its [catch] and [finally]:
    the new state, the item added, and whether the handler ends
    normally. *)
Definition complete (idNow dateNow : Z) (url : string) (outcome : Outcome)
    (st : State) : State * option Value * Exc unit :=
  match tryBlock idNow dateNow url outcome st with
  | (st1, added, None) => (finish st1, added, Ok tt)
  | (st1, added, Some err) =>
      match messageOf err with
      | Ok m => (finish (setError (Some m) st1), added, Ok tt)
      | Throw e => (finish st1, added, Throw e)
      end
  end.

(** One whole run: submit, what happens while the request is out, the
    completion. *)
Definition handleGenerate (idNow dateNow : Z) (during : list Interaction)
    (outcome : Outcome) (st : State) : State * option Value * Exc unit :=
  match submit st with
  | (st1, None) => (st1, None, Ok tt)
  | (st1, Some req) =>
      complete idNow dateNow (reqUrl req) outcome (fold_left interact during st1)
  end.

End Host.

End ArticleToInfographic.

(** ** The loading component as a whole, and views of its parts *)
Module LoadingComponent.
Import LoadingState.

(** The effect run after every render, without the dependency check. *)
Fixpoint everyRender (target : Q) (messages : list string) : list Q :=
  match messages with
  | [] => []
  | m :: ms => let t := smartProgress m target in t :: everyRender t ms
  end.

(** The cells and the ref of a mounted component. *)
Record Component := {
  stage : Stage;
  progress : Q;
  logs : list string
}.

Definition mounted : Component :=
  {| stage := mount initialTarget; progress := initialProgress; logs := [] |}.

(** What happens to a mounted component: a render with a message, a tick
    of the 30 ms interval, an operation on the log window. *)
Inductive Op :=
| Render (message : string)
| Tick
| Log (op : LogOp).

Definition step (type : Kind) (c : Component) (op : Op) : Component :=
  match op with
  | Render message =>
      {| stage := render (stage c) message; progress := progress c;
         logs := logs c |}
  | Tick =>
      {| stage := stage c;
         progress := tick (targetProgress (stage c)) (progress c);
         logs := logs c |}
  | Log o =>
      {| stage := stage c; progress := progress c;
         logs := logStep type (logs c) o |}
  end.

Definition run (type : Kind) (ops : list Op) : Component :=
  fold_left (step type) ops mounted.

(** The targets a run can have. *)
Definition isTier (t : Q) : Prop :=
  t = 10%Q \/ t = 35%Q \/ t = 70%Q \/ t = 98%Q.

(** The [strokeDashoffset] of the progress ring, in percent. *)
Definition strokeDashoffset (progress : Q) : Q :=
  (290 - 290 * progress / 100)%Q.

(** Every line written since the effect last started, with no bound on
    their number. *)
Definition writtenStep (type : Kind) (lines : list string) (op : LogOp)
    : list string :=
  match op with
  | LogStart => initialLogs type
  | LogTick r1 r2 now =>
      if Qlt_le_dec 0.7 r1 then lines
      else lines ++ [logLine now (taskAt type (Qfloor (r2 * 9)))]
  end.

Definition written (type : Kind) (ops : list LogOp) : list string :=
  fold_left (writtenStep type) ops [].

End LoadingComponent.

(** ** Views of a run of the application shell *)
Module AppRun.
Import Js App.

Definition runEvents (st : State) (events : list Event) : State :=
  fold_left step events st.

(** The items handed to each history, oldest first. *)
Definition repoAdds (events : list Event) : list Value :=
  omap (fun ev => match ev with RepoAdded item => Some item | _ => None end)
    events.

Definition articleAdds (events : list Event) : list Value :=
  omap (fun ev => match ev with ArticleAdded item => Some item | _ => None end)
    events.

(** The events that do not go through the gate's own handlers. *)
Definition leavesGate (ev : Event) : bool :=
  match ev with
  | ProbeResolved _ | KeySelected | ReauthRequested => false
  | _ => true
  end.

End AppRun.

(** ** Blank input *)
Module Blank.
Import JsString.

(** Every code unit of [s] is one that [trim] strips. *)
Fixpoint allWhite (s : string) : bool :=
  match s with
  | EmptyString => true
  | String c s' => is_white c && allWhite s'
  end.

End Blank.

(** ** Shapes of stored records *)
Module Records.
Import Js.

Definition nullish (v : Value) : bool :=
  match v with
  | VUndefined | VNull => true
  | _ => false
  end.

Definition isArray (v : Value) : bool :=
  match v with
  | VArr _ => true
  | _ => false
  end.

(** [item] is [raw] with its [date] replaced by the Date made from it. *)
Definition revivedFrom (Date_new : Value -> Exc (option Z))
    (raw item : Value) : Prop :=
  exists date time,
    getProp raw "date" = Ok date /\ Date_new date = Ok time /\
    item = VObj (setProp (spread raw) "date" (VDate time)).

(** The [date] a record carries, [undefined] when it has none. *)
Definition dateOf (raw : Value) : Value :=
  match raw with
  | VObj props => lookupProp props "date"
  | _ => VUndefined
  end.

End Records.

(** ** Strings: what [includes] and [toLowerCase] compute *)
Module JsStringFacts.
Import JsString.

Lemma append_nil (s : string) : "" +:+ s = s.
Proof. reflexivity. Qed.

Lemma append_cons (c : ascii) (s t : string) :
  String c s +:+ t = String c (s +:+ t).
Proof. reflexivity. Qed.

Lemma prefix_spec (sub s : string) :
  String.prefix sub s = true <-> exists post, s = sub +:+ post.
Proof.
  revert s. induction sub as [|c sub IH]; intros s.
  - split; [intros _; exists s; reflexivity | intros _; by destruct s].
  - destruct s as [|d s]; simpl.
    + split; [discriminate | intros [post H]; discriminate].
    + destruct (ascii_dec c d) as [->|Hne].
      * rewrite IH. split; intros [post H]; exists post.
        -- rewrite append_cons. congruence.
        -- rewrite append_cons in H. congruence.
      * split; [discriminate | intros [post H]].
        rewrite append_cons in H. congruence.
Qed.

Lemma includes_spec (s sub : string) :
  includes s sub = true <-> exists pre post, s = pre +:+ sub +:+ post.
Proof.
  induction s as [|c s IH].
  - change (includes "" sub) with (String.prefix sub "" || false).
    rewrite orb_false_r, prefix_spec. split.
    + intros [post H]. by exists EmptyString, post.
    + intros [pre [post H]]. destruct pre as [|d pre].
      * by exists post.
      * rewrite append_cons in H. discriminate.
  - change (includes (String c s) sub)
      with (String.prefix sub (String c s) || includes s sub).
    rewrite orb_true_iff, prefix_spec, IH. split.
    + intros [[post H] | [pre [post H]]].
      * by exists EmptyString, post.
      * exists (String c pre), post. rewrite append_cons. by rewrite H.
    + intros [pre [post H]]. destruct pre as [|d pre].
      * left. by exists post.
      * right. exists pre, post. rewrite append_cons in H. congruence.
Qed.

Lemma toLowerCase_app (s t : string) :
  toLowerCase (s +:+ t) = toLowerCase s +:+ toLowerCase t.
Proof.
  induction s as [|c s IH]; [done |].
  rewrite append_cons. simpl. by rewrite IH.
Qed.

(** Splitting a lowered string splits the string it came from. *)
Lemma toLowerCase_split (s a b : string) :
  toLowerCase s = a +:+ b ->
  exists s1 s2, s = s1 +:+ s2 /\ toLowerCase s1 = a /\ toLowerCase s2 = b.
Proof.
  revert s. induction a as [|c a IH]; intros s H.
  - by exists EmptyString, s.
  - rewrite append_cons in H.
    destruct s as [|d s]; simpl in H; [discriminate |].
    injection H as Hc Hs. destruct (IH _ Hs) as (s1 & s2 & -> & H1 & H2).
    exists (String d s1), s2. rewrite append_cons. simpl. by rewrite Hc, H1.
Qed.

(** [lowerMsg.includes(kw)] for a lower-case keyword is containment up
    to the case of the letters. *)
Lemma includes_lower_spec (message kw : string) :
  toLowerCase kw = kw ->
  includes (toLowerCase message) kw = true <->
  LoadingState.containsCI message kw.
Proof.
  intros Hkw. rewrite includes_spec. unfold LoadingState.containsCI. split.
  - intros (pre & post & H).
    apply toLowerCase_split in H as (s1 & s23 & -> & H1 & H23).
    apply toLowerCase_split in H23 as (s2 & s3 & -> & H2 & H3).
    exists s1, s2, s3. split; [done | congruence].
  - intros (pre & mid & post & -> & H).
    exists (toLowerCase pre), (toLowerCase post).
    rewrite !toLowerCase_app. congruence.
Qed.

End JsStringFacts.

(** ** The stage-progress mapper against the specification's buckets *)
Module StageFacts.
Import JsString JsStringFacts LoadingState.

Lemma matches_spec (bucket : list string) (message : string) :
  Forall (fun kw => toLowerCase kw = kw) bucket ->
  matches bucket message = true <-> containsAny bucket message.
Proof.
  intros Hlow. unfold matches, containsAny. rewrite existsb_exists.
  rewrite Forall_forall in Hlow.
  split; intros (kw & Hin & H); exists kw; (split; [done |]).
  - apply includes_lower_spec; [| done].
    apply Hlow. by apply list_elem_of_In.
  - apply includes_lower_spec; [| done].
    apply Hlow. by apply list_elem_of_In.
Qed.

Lemma buckets_lower :
  Forall (fun kw => toLowerCase kw = kw) bucket35 /\
  Forall (fun kw => toLowerCase kw = kw) bucket70 /\
  Forall (fun kw => toLowerCase kw = kw) bucket98.
Proof. repeat split; repeat constructor. Qed.

(** The effect, branch by branch. *)
Lemma smartProgress_matches (message : string) (prev : Q) :
  smartProgress message prev =
  if matches bucket35 message then 35%Q
  else if matches bucket70 message then 70%Q
  else if matches bucket98 message then 98%Q
  else prev.
Proof.
  unfold smartProgress, matches, bucket35, bucket70, bucket98. simpl.
  rewrite !orb_false_r, !orb_assoc. reflexivity.
Qed.

(** One message: the effect computes the bucket classification. *)
Lemma smartProgress_classify (message : string) :
  (exists t, classify message (Some t) /\
             forall prev, smartProgress message prev = t) \/
  (classify message None /\ forall prev, smartProgress message prev = prev).
Proof.
  destruct buckets_lower as (L35 & L70 & L98).
  pose proof (matches_spec bucket35 message L35) as H35.
  pose proof (matches_spec bucket70 message L70) as H70.
  pose proof (matches_spec bucket98 message L98) as H98.
  assert (forall b P, (b = true <-> P) -> b = false -> ~ P) as Hneg.
  { intros b P HP Hb HPn. apply HP in HPn. congruence. }
  destruct (matches bucket35 message) eqn:E35.
  { left. exists 35%Q. split; [apply classify35; by apply H35 |].
    intros prev. by rewrite smartProgress_matches, E35. }
  destruct (matches bucket70 message) eqn:E70.
  { left. exists 70%Q. split; [apply classify70; [eauto | by apply H70] |].
    intros prev. by rewrite smartProgress_matches, E35, E70. }
  destruct (matches bucket98 message) eqn:E98.
  { left. exists 98%Q.
    split; [apply classify98; [eauto | eauto | by apply H98] |].
    intros prev. by rewrite smartProgress_matches, E35, E70, E98. }
  right. split; [apply classifyNone; eauto |].
  intros prev. by rewrite smartProgress_matches, E35, E70, E98.
Qed.

Lemma classify_functional (message : string) (o1 o2 : option Q) :
  classify message o1 -> classify message o2 -> o1 = o2.
Proof. intros H1 H2. destruct H1; destruct H2; done. Qed.

(** Running the effect twice on one message changes nothing more. *)
Lemma smartProgress_idem (message : string) (prev : Q) :
  smartProgress message (smartProgress message prev) =
  smartProgress message prev.
Proof.
  destruct (smartProgress_classify message) as [(t & _ & H) | (_ & H)];
    by rewrite !H.
Qed.

Lemma settled_mount (start : Q) : settled (mount start).
Proof. intros m H. discriminate. Qed.

Lemma render_target (st : Stage) (message : string) :
  settled st ->
  targetProgress (render st message) =
  smartProgress message (targetProgress st).
Proof.
  intros Hst. unfold render, depsChanged.
  destruct (lastMessage st) as [m|] eqn:Hm; [| done].
  destruct (String.eqb m message) eqn:E; simpl; [| done].
  apply String.eqb_eq in E as <-. symmetry. by apply Hst.
Qed.

Lemma render_settled (st : Stage) (message : string) :
  settled st -> settled (render st message).
Proof.
  intros Hst. unfold render. destruct (depsChanged st message); [| done].
  intros m [= <-]. simpl. apply smartProgress_idem.
Qed.

Lemma targets_tierSequence (st : Stage) (messages : list string) :
  settled st -> tierSequence (targetProgress st) messages (targets st messages).
Proof.
  revert st. induction messages as [|m ms IH]; intros st Hst; simpl.
  - constructor.
  - pose proof (render_target st m Hst) as Ht.
    pose proof (IH _ (render_settled st m Hst)) as Hrest.
    destruct (smartProgress_classify m) as [(t & Hc & H) | (Hc & H)].
    + rewrite Ht, H in *. by apply tiers_match.
    + rewrite Ht, H in *. by apply tiers_keep.
Qed.

Lemma tierSequence_functional (prev : Q) (messages : list string) (ts1 ts2 : list Q) :
  tierSequence prev messages ts1 -> tierSequence prev messages ts2 -> ts1 = ts2.
Proof.
  intros H1. revert ts2.
  induction H1 as [prev | prev m ms t ts Hc _ IH | prev m ms ts Hc _ IH];
    intros ts2 H2; inversion H2; subst.
  - done.
  - pose proof (classify_functional _ _ _ Hc H3) as [= ->]. f_equal. eauto.
  - by pose proof (classify_functional _ _ _ Hc H3).
  - by pose proof (classify_functional _ _ _ Hc H3).
  - f_equal. eauto.
Qed.

(** C1. For every sequence of stage messages and every starting target,
    the targets the component goes through are exactly the sequence the
    bucket classification prescribes, message by message: a message that
    contains, in any case, a keyword of the first bucket gives 35,
    otherwise one of the second bucket gives 70, otherwise one of the
    third gives 98, otherwise the previous target stays.  The first
    matching bucket wins, and a later message of an earlier bucket moves
    the target down. *)
Theorem stage_targets_follow_buckets :
  (forall (start : Q) (messages : list string),
      tierSequence start messages (targets (mount start) messages) /\
      forall ts, tierSequence start messages ts ->
                 ts = targets (mount start) messages) /\
  (forall (message : string) (prev : Q),
      containsAny bucket35 message -> smartProgress message prev = 35%Q) /\
  targets (mount initialTarget) ["Rendering after fetch"] = [35%Q] /\
  targets (mount initialTarget) ["Generating image"; "Reading source"]
    = [98%Q; 35%Q].
Proof.
  split; [| split; [| split; reflexivity]].
  - intros start messages.
    pose proof (targets_tierSequence (mount start) messages
                  (settled_mount start)) as H.
    split; [exact H |].
    intros ts Hts. exact (tierSequence_functional _ _ _ _ Hts H).
  - intros message prev Hc.
    destruct (smartProgress_classify message) as [(t & Ht & H) | (Ht & H)].
    + rewrite H. inversion Ht; subst; done.
    + inversion Ht; subst; done.
Qed.

Lemma stage_targets_follow_buckets_witness :
  [35%Q; 70%Q] = targets (mount initialTarget) ["Fetching page"; "PARSING"] /\
  smartProgress "Fetching page" 98 = 35%Q.
Proof.
  destruct stage_targets_follow_buckets as (H1 & H2 & _).
  assert (forall kw bucket pre mid post,
             In kw bucket -> toLowerCase mid = toLowerCase kw ->
             containsAny bucket (pre +:+ mid +:+ post)) as Hany.
  { intros kw bucket pre mid post Hin Hlow. exists kw. split; [exact Hin |].
    by exists pre, mid, post. }
  assert (forall bucket message,
             Forall (fun kw => toLowerCase kw = kw) bucket ->
             matches bucket message = false -> ~ containsAny bucket message)
    as Hnone.
  { intros bucket message Hlow Hm Hc.
    apply (matches_spec bucket message Hlow) in Hc. congruence. }
  destruct buckets_lower as (L35 & L70 & L98).
  split.
  - apply (proj2 (H1 initialTarget ["Fetching page"; "PARSING"])).
    apply tiers_match.
    + apply classify35.
      apply (Hany "fetch" bucket35 "" "Fetch" "ing page"); [| reflexivity].
      simpl. auto.
    + apply tiers_match; [| constructor].
      apply classify70.
      * apply Hnone; [exact L35 | reflexivity].
      * apply (Hany "pars" bucket70 "" "PARS" "ING"); [| reflexivity].
        simpl. auto.
  - apply H2.
    apply (Hany "fetch" bucket35 "" "Fetch" "ing page"); [| reflexivity].
    simpl. auto.
Defined.

(** C4 as stated fails: the first message already contains "init". *)
Lemma scenario_not_unchanged :
  targets (mount initialTarget)
    ["INITIALIZING"; "Fetching page"; "Analyzing structure"; "Generating image"]
  <> [10%Q; 35%Q; 70%Q; 98%Q].
Proof. vm_compute. discriminate. Qed.

(** C4 (amended). The stage sequence "INITIALIZING", "Fetching page",
    "Analyzing structure", "Generating image", fed to the mapper from the
    baseline target 10, gives the targets 35, 35, 70, 98: "INITIALIZING"
    contains "init" and moves the target to 35. *)
Theorem scenario_targets :
  targets (mount initialTarget)
    ["INITIALIZING"; "Fetching page"; "Analyzing structure"; "Generating image"]
  = [35%Q; 35%Q; 70%Q; 98%Q] /\
  smartProgress "INITIALIZING" initialTarget = 35%Q.
Proof. split; reflexivity. Qed.

End StageFacts.

(** ** The progress animation *)
Module AnimatorFacts.
Import LoadingState.
Local Open Scope Q_scope.

Lemma Qabs_cases (d : Q) :
  (0 <= d /\ Qabs d == d) \/ (d <= 0 /\ Qabs d == - d).
Proof.
  destruct (Qlt_le_dec d 0) as [H | H].
  - right. split; [lra |]. apply Qabs_neg. lra.
  - left. split; [done |]. by apply Qabs_pos.
Qed.

Lemma tick_settled (T x : Q) : Qabs (T - x) < 0.5 -> tick T x = x.
Proof.
  intros H. unfold tick. destruct (Qlt_le_dec (Qabs (T - x)) 0.5); [done | lra].
Qed.

Lemma tick_moving (T x : Q) :
  0.5 <= Qabs (T - x) -> tick T x = x + (T - x) * 0.05.
Proof.
  intros H. unfold tick. destruct (Qlt_le_dec (Qabs (T - x)) 0.5); [lra | done].
Qed.

Lemma tick_below (T x : Q) : x <= T -> x <= tick T x /\ tick T x <= T.
Proof.
  intros H. unfold tick.
  destruct (Qlt_le_dec (Qabs (T - x)) 0.5); split; lra.
Qed.

Lemma tick_above (T x : Q) : T <= x -> T <= tick T x /\ tick T x <= x.
Proof.
  intros H. unfold tick.
  destruct (Qlt_le_dec (Qabs (T - x)) 0.5); split; lra.
Qed.

Lemma ticks_outer (n : nat) (T x : Q) :
  ticks (S n) T x = tick T (ticks n T x).
Proof.
  revert x. induction n as [|n IH]; intros x; [done |].
  change (ticks (S (S n)) T x) with (ticks (S n) T (tick T x)).
  rewrite IH. reflexivity.
Qed.

Lemma ticks_below (n : nat) (T x : Q) : x <= T -> ticks n T x <= T.
Proof.
  revert x. induction n as [|n IH]; intros x H; simpl; [done |].
  apply IH. by apply tick_below.
Qed.

Lemma ticks_above (n : nat) (T x : Q) : T <= x -> T <= ticks n T x.
Proof.
  revert x. induction n as [|n IH]; intros x H; simpl; [done |].
  apply IH. by apply tick_above.
Qed.

Lemma ticks_stay (n : nat) (T x : Q) :
  Qabs (T - x) < 0.5 -> ticks n T x = x.
Proof.
  intros H. induction n as [|n IH]; [done |].
  simpl. by rewrite (tick_settled T x H).
Qed.

Lemma inject_S (n : nat) :
  inject_Z (Z.of_nat (S n)) == inject_Z (Z.of_nat n) + 1.
Proof. rewrite Nat2Z.inj_succ. unfold Z.succ. by rewrite inject_Z_plus. Qed.

(** Every tick that moves covers at least 0.025, so a start within
    0.5 + n * 0.025 of the target has settled after [n] ticks. *)
Lemma ticks_reach (n : nat) (T x : Q) :
  Qabs (T - x) < 0.5 + inject_Z (Z.of_nat n) * 0.025 ->
  Qabs (T - ticks n T x) < 0.5.
Proof.
  revert x. induction n as [|n IH]; intros x H.
  - change (ticks 0 T x) with x.
    change (inject_Z (Z.of_nat 0)) with 0 in H. lra.
  - change (ticks (S n) T x) with (ticks n T (tick T x)).
    apply IH. rewrite inject_S in H.
    destruct (Qlt_le_dec (Qabs (T - x)) 0.5) as [Hs | Hm].
    + rewrite (tick_settled T x Hs).
      assert (0 <= inject_Z (Z.of_nat n)).
      { change 0 with (inject_Z 0). rewrite <- Zle_Qle. lia. }
      nra.
    + rewrite (tick_moving T x Hm).
      destruct (Qabs_cases (T - x)) as [[H0 E] | [H0 E]];
        destruct (Qabs_cases (T - (x + (T - x) * 0.05))) as [[H1 E1] | [H1 E1]];
        lra.
Qed.

Lemma ticks_settle (T x : Q) :
  exists n, forall m, (n <= m)%nat -> Qabs (T - ticks m T x) < 0.5.
Proof.
  set (n := Z.to_nat (Qceiling (40 * Qabs (T - x)))).
  assert (Qabs (T - ticks n T x) < 0.5) as Hn.
  { apply ticks_reach.
    pose proof (Qle_ceiling (40 * Qabs (T - x))) as Hc.
    assert (inject_Z (Qceiling (40 * Qabs (T - x))) <= inject_Z (Z.of_nat n)).
    { rewrite <- Zle_Qle. unfold n. lia. }
    lra. }
  exists n. intros m Hm.
  replace m with ((m - n) + n)%nat by lia.
  assert (forall k, ticks (k + n) T x = ticks n T x) as Hk.
  { induction k as [|k IHk]; [done |].
    change (S k + n)%nat with (S (k + n)).
    rewrite ticks_outer, IHk. by apply tick_settled. }
  by rewrite Hk.
Qed.

Lemma animate_below (Ts : list Q) (x : Q) :
  Sorted Qle Ts ->
  (forall T0, head Ts = Some T0 -> x <= T0) ->
  Forall2 (fun T p => p <= T) Ts (animate Ts x) /\
  Sorted Qle (x :: animate Ts x).
Proof.
  revert x. induction Ts as [|T Ts IH]; intros x Hs Hx; simpl.
  - split; constructor; constructor.
  - apply Sorted_inv in Hs as [Hs Hhd].
    destruct (tick_below T x (Hx T eq_refl)) as [Hlo Hhi].
    destruct (IH (tick T x) Hs) as [IH1 IH2].
    { intros T0 HT0. destruct Ts as [|T1 Ts']; [done |].
      injection HT0 as ->. apply HdRel_inv in Hhd. lra. }
    split; [by constructor |].
    constructor; [done | by constructor].
Qed.





End AnimatorFacts.

(** ** The log simulator *)
Module LogFacts.
Import JsString JsStringFacts LoadingState.

Lemma digitValue_digit (d : Z) : 0 <= d <= 9 -> digitValue (digit d) = d.
Proof.
  intros H.
  assert (d = 0 \/ d = 1 \/ d = 2 \/ d = 3 \/ d = 4 \/ d = 5 \/ d = 6 \/
          d = 7 \/ d = 8 \/ d = 9) as Hd by lia.
  repeat (destruct Hd as [-> | Hd]; [reflexivity |]). by subst.
Qed.

Lemma secondOfDay_range (now : Z) : 0 <= secondOfDay now < 86400.
Proof.
  unfold secondOfDay, msPerDay.
  pose proof (Z.mod_pos_bound now 86400000 ltac:(lia)).
  split; [apply Z.div_pos; lia | apply Z.div_lt_upper_bound; lia].
Qed.

(** The stamp read back from a line is the second of the day it was
    written at. *)
Lemma stampOf_logLine (now : Z) (nextLog : string) :
  stampOf (logLine now nextLog) = Some (secondOfDay now).
Proof.
  pose proof (secondOfDay_range now) as Hs.
  set (s := secondOfDay now) in *.
  change (stampOf (logLine now nextLog)) with
    (Some ((10 * digitValue (digit (s / 3600 / 10)) +
            digitValue (digit (s / 3600 mod 10))) * 3600 +
           (10 * digitValue (digit (s / 60 mod 60 / 10)) +
            digitValue (digit (s / 60 mod 60 mod 10))) * 60 +
           (10 * digitValue (digit (s mod 60 / 10)) +
            digitValue (digit (s mod 60 mod 10))))).
  rewrite !digitValue_digit by (Z.div_mod_to_equations; lia).
  f_equal. Z.div_mod_to_equations. lia.
Qed.

Lemma secondOfDay_mono (day a b : Z) :
  a / msPerDay = day -> b / msPerDay = day -> a <= b ->
  secondOfDay a <= secondOfDay b.
Proof.
  unfold secondOfDay, msPerDay. intros Ha Hb Hab.
  apply Z.div_le_mono; [lia |]. Z.div_mod_to_equations. lia.
Qed.

Lemma tasks_length (type : Kind) : length (tasks type) = 9%nat.
Proof. by destruct type. Qed.

Lemma stamps_initialLogs (type : Kind) : stamps (initialLogs type) = [].
Proof. by destruct type. Qed.

Lemma logTick_skip (type : Kind) (r1 r2 : Q) (now : Z) (prev : list string) :
  (0.7 < r1)%Q -> logTick type r1 r2 now prev = prev.
Proof.
  intros H. unfold logTick. destruct (Qlt_le_dec 0.7 r1); [done | lra].
Qed.

(** An appending tick: the new line goes to the end, then the last five
    lines are kept. *)
Lemma logTick_append (type : Kind) (r1 r2 : Q) (now : Z) (prev : list string) :
  (r1 <= 0.7)%Q ->
  logTick type r1 r2 now prev =
  drop (length prev + 1 - 5)
    (prev ++ [logLine now (taskAt type (Qfloor (r2 * 9)))]).
Proof.
  intros H. unfold logTick. destruct (Qlt_le_dec 0.7 r1); [lra |].
  rewrite tasks_length. change (inject_Z (Z.of_nat 9)) with 9%Q.
  unfold lastFive. rewrite length_app. simpl length.
  destruct (5 <? length prev + 1)%nat eqn:E; [done |].
  apply Nat.ltb_ge in E.
  by replace (length prev + 1 - 5)%nat with 0%nat by lia.
Qed.

Lemma taskAt_in_pool (type : Kind) (r2 : Q) :
  (0 <= r2)%Q -> (r2 < 1)%Q -> In (taskAt type (Qfloor (r2 * 9))) (tasks type).
Proof.
  intros H0 H1.
  assert (0 <= Qfloor (r2 * 9) < 9) as Hi.
  { split.
    - change 0 with (Qfloor 0). apply Qfloor_resp_le. lra.
    - pose proof (Qfloor_le (r2 * 9)) as Hf.
      rewrite Zlt_Qlt. change (inject_Z 9) with 9%Q. lra. }
  unfold taskAt. destruct (Z.ltb_spec (Qfloor (r2 * 9)) 0) as [? | _]; [lia |].
  apply nth_In. rewrite tasks_length. lia.
Qed.

Lemma logTick_length (type : Kind) (r1 r2 : Q) (now : Z) (prev : list string) :
  (length prev <= 5)%nat -> (length (logTick type r1 r2 now prev) <= 5)%nat.
Proof.
  intros H. destruct (Qlt_le_dec 0.7 r1) as [Hs | Ha].
  - by rewrite logTick_skip.
  - rewrite logTick_append by done.
    rewrite length_drop, length_app. simpl. lia.
Qed.

Lemma logStep_length (type : Kind) (logs : list string) (op : LogOp) :
  (length logs <= 5)%nat -> (length (logStep type logs op) <= 5)%nat.
Proof.
  intros H. destruct op as [| r1 r2 now]; simpl.
  - lia.
  - by apply logTick_length.
Qed.

Lemma fold_logStep_length (type : Kind) (ops : list LogOp) (logs : list string) :
  (length logs <= 5)%nat ->
  (length (fold_left (logStep type) ops logs) <= 5)%nat.
Proof.
  revert logs. induction ops as [|op ops IH]; intros logs H; simpl; [done |].
  apply IH. by apply logStep_length.
Qed.

(** While the clock does not go back and stays within one UTC day, the
    stamps in the window stay in order. *)
Lemma fold_logStep_sorted (type : Kind) (day : Z) (ops : list LogOp)
    (logs : list string) :
  StronglySorted Z.le (appendClocks ops) ->
  Forall (fun now => now / msPerDay = day) (appendClocks ops) ->
  StronglySorted Z.le (stamps logs) ->
  (forall s now, s ∈ stamps logs -> now ∈ appendClocks ops ->
                 s <= secondOfDay now) ->
  StronglySorted Z.le (stamps (fold_left (logStep type) ops logs)).
Proof.
  revert logs. induction ops as [|op ops IH]; intros logs Hc Hd Hs Hb; [done |].
  simpl fold_left. destruct op as [| r1 r2 now].
  - change (appendClocks (LogStart :: ops)) with (appendClocks ops) in *.
    change (logStep type logs LogStart) with (initialLogs type).
    apply IH; try done.
    + rewrite stamps_initialLogs. constructor.
    + rewrite stamps_initialLogs. intros s now' Hin.
      by apply elem_of_nil in Hin.
  - unfold appendClocks in Hc, Hd, Hb. simpl in Hc, Hd, Hb.
    fold (appendClocks ops) in Hc, Hd, Hb. simpl logStep.
    destruct (Qlt_le_dec 0.7 r1) as [Hskip | Happ].
    + rewrite logTick_skip by done. by apply IH.
    + rewrite logTick_append by done.
      set (line := logLine now (taskAt type (Qfloor (r2 * 9)))).
      set (k := (length logs + 1 - 5)%nat).
      apply StronglySorted_inv in Hc as [Hc Hnow].
      apply Forall_cons in Hd as [Hday Hd].
      assert (stamps (logs ++ [line]) = stamps logs ++ [secondOfDay now])
        as Hfull.
      { unfold stamps. rewrite omap_app. f_equal.
        change (omap stampOf [line]) with
          (match stampOf line with Some s => [s] | None => [] end).
        unfold line. by rewrite stampOf_logLine. }
      assert (StronglySorted Z.le (stamps (logs ++ [line]))) as Hsorted.
      { rewrite Hfull. apply StronglySorted_app_2; [| done | repeat constructor].
        intros s s' Hin Hin'. apply list_elem_of_singleton in Hin' as ->.
        apply Hb; [done | left]. }
      assert (stamps (logs ++ [line]) =
              stamps (take k (logs ++ [line])) ++
              stamps (drop k (logs ++ [line]))) as Hsplit.
      { unfold stamps. by rewrite <- omap_app, take_drop. }
      apply IH; try done.
      * rewrite Hsplit in Hsorted. by apply StronglySorted_app_1_r in Hsorted.
      * intros s now' Hin Hin'.
        assert (s ∈ stamps logs ++ [secondOfDay now]) as Hin2.
        { rewrite <- Hfull, Hsplit. apply elem_of_app. by right. }
        apply elem_of_app in Hin2 as [Hold | Hnew].
        -- apply Hb; [done | by right].
        -- apply list_elem_of_singleton in Hnew as ->.
           apply (secondOfDay_mono day); [done | |].
           ++ rewrite Forall_forall in Hd. by apply Hd.
           ++ rewrite Forall_forall in Hnow. by apply Hnow.
Qed.

(** *** Counting over the sample grid *)

Lemma filter_map_length {A B : Type} (P : B -> Prop)
    `{forall x, Decision (P x)} (f : A -> B) (l : list A) :
  length (filter P (map f l)) = length (filter (fun x => P (f x)) l).
Proof.
  induction l as [|x l IH]; [done |].
  simpl map. rewrite !filter_cons. destruct (decide (P (f x))); simpl; by rewrite IH.
Qed.

Lemma count_between (a b N : nat) :
  length (filter (fun k => a <= k < b)%nat (seq 0 N)) =
  (N `min` b - N `min` a)%nat.
Proof.
  induction N as [|N IH]; [done |].
  rewrite seq_S, filter_app, length_app, IH.
  rewrite filter_cons, filter_nil.
  destruct (decide (a <= 0 + N < b)%nat); simpl length; lia.
Qed.

Lemma count_from (a N : nat) :
  length (filter (fun k => a <= k)%nat (seq 0 N)) = (N - a)%nat.
Proof.
  induction N as [|N IH]; [done |].
  rewrite seq_S, filter_app, length_app, IH.
  rewrite filter_cons, filter_nil.
  destruct (decide (a <= 0 + N)%nat); simpl length; lia.
Qed.

Lemma grid_point_skips (k : Z) (p : positive) :
  (0.7 < inject_Z k / inject_Z (Z.pos p))%Q <-> 7 * Z.pos p < 10 * k.
Proof. unfold Qlt, Qdiv, Qmult, Qinv. simpl. lia. Qed.

Lemma grid_point_floor (k : Z) (p : positive) :
  Qfloor (inject_Z k / inject_Z (Z.pos p) * 9) = (9 * k) / Z.pos p.
Proof.
  unfold Qdiv, Qmult, Qinv. simpl.
  rewrite Pos.mul_1_r, Z.mul_1_r. f_equal. lia.
Qed.

Lemma doNothing_iff (r : Q) :
  logTick article r 0 0 [] = [] <-> (0.7 < r)%Q.
Proof.
  split; intros H.
  - destruct (Qlt_le_dec 0.7 r) as [| Ha]; [done |].
    rewrite logTick_append in H by done. discriminate.
  - by apply logTick_skip.
Qed.

Lemma doNothingCount_eq (N : nat) :
  (0 < N)%nat ->
  doNothingCount N = (N - Z.to_nat (7 * Z.of_nat N / 10 + 1))%nat.
Proof.
  intros HN. unfold doNothingCount, grid.
  rewrite filter_map_length.
  rewrite (list_filter_iff _
             (fun k => Z.to_nat (7 * Z.of_nat N / 10 + 1) <= k)%nat).
  - apply count_from.
  - intros k. rewrite doNothing_iff.
    destruct N as [|n]; [lia |].
    change (Z.of_nat (S n)) with (Z.pos (Pos.of_succ_nat n)).
    rewrite grid_point_skips.
    pose proof (Z.div_mod (7 * Z.pos (Pos.of_succ_nat n)) 10 ltac:(lia)).
    pose proof (Z.mod_pos_bound (7 * Z.pos (Pos.of_succ_nat n)) 10 ltac:(lia)).
    lia.
Qed.

Lemma drawCount_eq (type : Kind) (N : nat) (i : Z) :
  (0 < N)%nat -> 0 <= i ->
  drawCount type N i =
  (N `min` Z.to_nat (((i + 1) * Z.of_nat N + 8) / 9) -
   N `min` Z.to_nat ((i * Z.of_nat N + 8) / 9))%nat.
Proof.
  intros HN Hi. unfold drawCount, grid.
  rewrite filter_map_length, tasks_length.
  change (inject_Z (Z.of_nat 9)) with 9%Q.
  rewrite (list_filter_iff _
             (fun k => Z.to_nat ((i * Z.of_nat N + 8) / 9) <= k <
                       Z.to_nat (((i + 1) * Z.of_nat N + 8) / 9))%nat).
  - apply count_between.
  - intros k. destruct N as [|n]; [lia |].
    change (Z.of_nat (S n)) with (Z.pos (Pos.of_succ_nat n)).
    rewrite grid_point_floor.
    set (p := Z.pos (Pos.of_succ_nat n)).
    assert (0 < p) by (unfold p; lia).
    split.
    + intros <-. Z.div_mod_to_equations. nia.
    + intros [Ha Hb]. symmetry. apply Z.div_unique_pos with (r := 9 * Z.of_nat k - i * p).
      * Z.div_mod_to_equations. nia.
      * lia.
Qed.







End LogFacts.

(** ** The history store *)
Module HistoryFacts.
Import Js App Records.

Section Host.

Context {Storage : Type}.
Variable storage_getItem : Storage -> string -> Exc (option string).
Variable storage_setItem : Storage -> string -> string -> Exc Storage.
Variable JSON_parse : string -> Exc Value.
Variable JSON_stringify : list Value -> Exc string.
Variable Date_new : Value -> Exc (option Z).

Local Abbreviation World := (@World Storage).
Local Abbreviation persist := (persist storage_setItem JSON_stringify).
Local Abbreviation loadHistory :=
  (loadHistory storage_getItem JSON_parse Date_new).

Lemma lookupProp_setProp (props : list (string * Value)) (name : string) (v : Value) :
  lookupProp (setProp props name v) name = v.
Proof.
  induction props as [|[k w] props IH]; simpl.
  - by rewrite String.eqb_refl.
  - destruct (String.eqb k name) eqn:E; simpl; by rewrite E.
Qed.

Lemma revive_revived (raw item : Value) :
  revive Date_new raw = Ok item <-> revivedFrom Date_new raw item.
Proof.
  unfold revive, revivedFrom. split.
  - destruct (getProp raw "date") as [date | e]; [| done].
    destruct (Date_new date) as [time | e] eqn:E; [| done].
    intros [= <-]. by exists date, time.
  - intros (date & time & -> & -> & ->). reflexivity.
Qed.

Lemma mapExc_of_Forall2 (f : Value -> Exc Value) (raws items : list Value) :
  Forall2 (fun raw item => f raw = Ok item) raws items ->
  mapExc f raws = Ok items.
Proof.
  induction 1 as [|raw item raws items H _ IH]; [done |].
  simpl. by rewrite H, IH.
Qed.

Lemma mapExc_Forall2 (f : Value -> Exc Value) (raws items : list Value) :
  mapExc f raws = Ok items -> Forall2 (fun raw item => f raw = Ok item) raws items.
Proof.
  revert items. induction raws as [|raw raws IH]; intros items H; simpl in H.
  - injection H as <-. constructor.
  - destruct (f raw) as [item | e] eqn:E; [| done].
    destruct (mapExc f raws) as [rest | e]; [| done].
    injection H as <-. constructor; [done | by apply IH].
Qed.

(** The persist effect ends normally whatever the storage does, and a
    failed write leaves the storage as it was. *)
Lemma persist_ok (key warning : string) (history : list Value) (w : World) :
  exists w', persist key warning history w = (Ok tt, w') /\
    match JSON_stringify history with
    | Ok text =>
        match storage_setItem (localStorage w) key text with
        | Ok s' => localStorage w' = s' /\ warnings w' = warnings w
        | Throw e => localStorage w' = localStorage w /\
                     warnings w' = warnings w ++ [(warning, e)]
        end
    | Throw e => localStorage w' = localStorage w /\
                 warnings w' = warnings w ++ [(warning, e)]
    end.
Proof.
  unfold App.persist, tryCatch, bind, lift, setItem, console_warn.
  destruct (JSON_stringify history) as [text | e]; simpl.
  - destruct (storage_setItem (localStorage w) key text) as [s' | e]; simpl;
      eexists; split; try reflexivity; done.
  - eexists; split; try reflexivity; done.
Qed.

(** C7. For every item and every in-memory list: when the storage write
    that follows append(item) fails, the item is at the head of the
    in-memory list afterwards, the rest of the list is as before, the
    handler ends normally, and the storage is untouched.  This holds for
    the repository history and for the article history. *)
Theorem append_survives_write_failure :
  (forall (item : Value) (st : State) (w : World) (e : Error),
      match JSON_stringify (item :: repoHistory st) with
      | Ok text => storage_setItem (localStorage w) repoKey text
      | Throw e' => Throw e'
      end = Throw e ->
      exists w',
        addRepoHistory storage_setItem JSON_stringify item st w
          = (Ok (handleAddRepoHistory item st), w') /\
        repoHistory (handleAddRepoHistory item st) = item :: repoHistory st /\
        localStorage w' = localStorage w /\
        exists warning, warnings w' = warnings w ++ [(warning, e)]) /\
  (forall (item : Value) (st : State) (w : World) (e : Error),
      match JSON_stringify (item :: articleHistory st) with
      | Ok text => storage_setItem (localStorage w) articleKey text
      | Throw e' => Throw e'
      end = Throw e ->
      exists w',
        addArticleHistory storage_setItem JSON_stringify item st w
          = (Ok (handleAddArticleHistory item st), w') /\
        articleHistory (handleAddArticleHistory item st)
          = item :: articleHistory st /\
        localStorage w' = localStorage w /\
        exists warning, warnings w' = warnings w ++ [(warning, e)]).
Proof.
  split; intros item st w e Hfail.
  - unfold addRepoHistory, persistRepo, bind at 1.
    edestruct (persist_ok repoKey) as (w' & -> & Hw').
    exists w'. split; [reflexivity |]. split; [reflexivity |].
    change (repoHistory (handleAddRepoHistory item st))
      with (item :: repoHistory st) in Hw'.
    destruct (JSON_stringify (item :: repoHistory st)) as [text | e'].
    + rewrite Hfail in Hw'. destruct Hw' as [-> ->]. eauto.
    + injection Hfail as ->. destruct Hw' as [-> ->]. eauto.
  - unfold addArticleHistory, persistArticle, bind at 1.
    edestruct (persist_ok articleKey) as (w' & -> & Hw').
    exists w'. split; [reflexivity |]. split; [reflexivity |].
    change (articleHistory (handleAddArticleHistory item st))
      with (item :: articleHistory st) in Hw'.
    destruct (JSON_stringify (item :: articleHistory st)) as [text | e'].
    + rewrite Hfail in Hw'. destruct Hw' as [-> ->]. eauto.
    + injection Hfail as ->. destruct Hw' as [-> ->]. eauto.
Qed.

(** C8. For every content of the storage, load() ends normally and never
    writes the storage.  When the stored text parses to an array whose
    records each carry a date a [Date] can be made from, it returns exactly
    those records, in order, each with its [date] replaced by that [Date].
    When the read throws, the parse throws or mapping the parsed value
    throws, it returns the empty list and logs the warning; for a missing
    key it returns the empty list. *)
Theorem load_never_throws :
  (forall (key warning : string) (w : World),
      exists items w',
        loadHistory key warning w = (Ok items, w') /\
        localStorage w' = localStorage w) /\
  (forall (key warning text : string) (raws items : list Value) (w : World),
      storage_getItem (localStorage w) key = Ok (Some text) ->
      truthy text = true ->
      JSON_parse text = Ok (VArr raws) ->
      Forall2 (revivedFrom Date_new) raws items ->
      loadHistory key warning w = (Ok items, w)) /\
  (forall (key warning : string) (w : World) (e : Error),
      storage_getItem (localStorage w) key = Throw e ->
      loadHistory key warning w =
        (Ok [], {| localStorage := localStorage w;
                   warnings := warnings w ++ [(warning, e)] |})) /\
  (forall (key warning text : string) (w : World) (e : Error),
      storage_getItem (localStorage w) key = Ok (Some text) ->
      truthy text = true ->
      JSON_parse text = Throw e ->
      loadHistory key warning w =
        (Ok [], {| localStorage := localStorage w;
                   warnings := warnings w ++ [(warning, e)] |})) /\
  (forall (key warning text : string) (parsed : Value) (w : World) (e : Error),
      storage_getItem (localStorage w) key = Ok (Some text) ->
      truthy text = true ->
      JSON_parse text = Ok parsed ->
      arrayMap (revive Date_new) parsed = Throw e ->
      loadHistory key warning w =
        (Ok [], {| localStorage := localStorage w;
                   warnings := warnings w ++ [(warning, e)] |})) /\
  (forall (key warning : string) (w : World),
      storage_getItem (localStorage w) key = Ok None ->
      loadHistory key warning w = (Ok [], w)).
Proof.
  split; [| split; [| split; [| split; [| split]]]].
  - intros key warning w.
    unfold App.loadHistory, tryCatch, bind, lift, getItem, console_warn, ret.
    destruct (storage_getItem (localStorage w) key) as [[text |] | e]; simpl;
      eauto.
    destruct (truthy text); simpl; eauto.
    destruct (JSON_parse text) as [parsed | e]; simpl; eauto.
    destruct (arrayMap (revive Date_new) parsed) as [items | e]; simpl; eauto.
  - intros key warning text raws items w Hget Ht Hparse Hrev.
    unfold App.loadHistory, tryCatch, bind, lift, getItem, console_warn, ret.
    rewrite Hget, Ht, Hparse. simpl arrayMap.
    rewrite (mapExc_of_Forall2 (revive Date_new) raws items); [done |].
    eapply Forall2_impl; [exact Hrev |]. intros raw item. apply revive_revived.
  - intros key warning w e Hget.
    unfold App.loadHistory, tryCatch, bind, lift, getItem, console_warn, ret.
    by rewrite Hget.
  - intros key warning text w e Hget Ht Hparse.
    unfold App.loadHistory, tryCatch, bind, lift, getItem, console_warn, ret.
    by rewrite Hget, Ht, Hparse.
  - intros key warning text parsed w e Hget Ht Hparse Hmap.
    unfold App.loadHistory, tryCatch, bind, lift, getItem, console_warn, ret.
    by rewrite Hget, Ht, Hparse, Hmap.
  - intros key warning w Hget.
    unfold App.loadHistory, tryCatch, bind, lift, getItem, console_warn, ret.
    by rewrite Hget.
Qed.

End Host.

Lemma append_survives_write_failure_witness :
  let full := {| LocalStorage.entries := ∅; LocalStorage.quota := 0;
                 LocalStorage.denied := false |} in
  let w := {| localStorage := full; warnings := [] |} in
  let stringify := fun history : list Value =>
                     if decide (length history = 0%nat) then Ok "[]"
                     else @Ok string "[{}]" in
  let st := initialState [] [] in
  (exists w',
      addRepoHistory LocalStorage.setItem stringify (VObj []) st w
        = (Ok (handleAddRepoHistory (VObj []) st), w') /\
      repoHistory (handleAddRepoHistory (VObj []) st) = VObj [] :: repoHistory st /\
      localStorage w' = localStorage w /\
      exists warning, warnings w' = warnings w ++ [(warning, QuotaExceededError)]) /\
  (exists w',
      addArticleHistory LocalStorage.setItem stringify (VObj []) st w
        = (Ok (handleAddArticleHistory (VObj []) st), w') /\
      articleHistory (handleAddArticleHistory (VObj []) st)
        = VObj [] :: articleHistory st /\
      localStorage w' = localStorage w /\
      exists warning, warnings w' = warnings w ++ [(warning, QuotaExceededError)]).
Proof.
  intros full w stringify st.
  destruct (append_survives_write_failure LocalStorage.setItem stringify)
    as (H1 & H2).
  split; [apply H1 | apply H2]; vm_compute; reflexivity.
Defined.

Lemma load_never_throws_witness :
  let area := fun (entries : gmap string string) (denied : bool) =>
                {| localStorage :=
                     {| LocalStorage.entries := entries;
                        LocalStorage.quota := 100;
                        LocalStorage.denied := denied |};
                   warnings := [] |} in
  let parse := fun text : string =>
                 if String.eqb text "[{}]"
                 then Ok (VArr [VObj [("id", VStr "7"); ("date", VNum 5)]])
                 else if String.eqb text "null" then Ok VNull
                 else @Throw Value SyntaxError in
  let date := fun v : Value =>
                match v with
                | VNum n => Ok (Some n)
                | VObj _ => @Throw (option Z) TypeError
                | _ => Ok None
                end in
  let warned := fun (entries : gmap string string) (e : Error) =>
                  {| localStorage := localStorage (area entries false);
                     warnings := [("warning", e)] |} in
  loadHistory LocalStorage.getItem parse date repoKey "warning"
    (area {[ repoKey := "[{}]" ]} false)
    = (Ok [VObj [("id", VStr "7"); ("date", VDate (Some 5))]],
       area {[ repoKey := "[{}]" ]} false) /\
  loadHistory LocalStorage.getItem parse date repoKey "warning" (area ∅ true)
    = (Ok [], {| localStorage := localStorage (area ∅ true);
                 warnings := [("warning", SecurityError)] |}) /\
  loadHistory LocalStorage.getItem parse date repoKey "warning"
    (area {[ repoKey := "{oops" ]} false)
    = (Ok [], warned {[ repoKey := "{oops" ]} SyntaxError) /\
  loadHistory LocalStorage.getItem parse date repoKey "warning"
    (area {[ repoKey := "null" ]} false)
    = (Ok [], warned {[ repoKey := "null" ]} TypeError) /\
  loadHistory LocalStorage.getItem parse date repoKey "warning" (area ∅ false)
    = (Ok [], area ∅ false).
Proof.
  intros area parse date warned.
  destruct (load_never_throws LocalStorage.getItem parse date)
    as (_ & H2 & H3 & H4 & H5 & H6).
  split.
  { apply (H2 repoKey "warning" "[{}]"
             [VObj [("id", VStr "7"); ("date", VNum 5)]]); try reflexivity.
    constructor; [| constructor].
    exists (VNum 5), (Some 5). repeat split. }
  split; [apply (H3 repoKey "warning" (area ∅ true)); reflexivity |].
  split; [apply (H4 repoKey "warning" "{oops"
                   (area {[ repoKey := "{oops" ]} false) SyntaxError);
          reflexivity |].
  split; [apply (H5 repoKey "warning" "null" VNull
                   (area {[ repoKey := "null" ]} false) TypeError);
          reflexivity |].
  apply H6. reflexivity.
Defined.

End HistoryFacts.

(** ** The session gate and the keyboard shortcuts *)
Module ShortcutFacts.
Import Js App.

(** While the key check is running no key has been accepted. *)
Lemma reachable_checking (st : State) :
  reachable st -> checkingKey st = true -> hasApiKey st = false.
Proof.
  induction 1 as [repo article | st ev Hst IH Hen]; [done |].
  destruct ev as [probe | | | | mode | e | item | item]; simpl; try done.
  - simpl in Hen. congruence.
  - unfold keyDown. simpl.
    assert (forall actions s,
               checkingKey (fold_left perform actions s) = checkingKey s /\
               hasApiKey (fold_left perform actions s) = hasApiKey s) as Hf.
    { induction actions as [|a actions IHa]; intros s; [done |].
      simpl. destruct (IHa (perform s a)) as [-> ->]. by destruct a. }
    destruct (Hf (handleKeyDown st e) st) as [-> ->]. exact IH.
Qed.

Lemma isShortcut_key (e : KeyboardEvent) (view : ViewMode) :
  isShortcut e view ->
  (key e = "1" /\ view = HOME) \/
  (key e = "2" /\ view = REPO_ANALYZER) \/
  (key e = "3" /\ view = ARTICLE_INFOGRAPHIC).
Proof.
  intros (_ & _ & _ & _ & Hin). simpl in Hin.
  destruct Hin as [[= <- <-] | [[= <- <-] | [[= <- <-] | []]]]; eauto.
Qed.

(** C9. For every key-down event that is exactly the designated modifier
    plus a digit of the shortcut table, with no other modifier held: when
    the gate is Unlocked and no intro overlay is shown, the handler
    suppresses the default and sets the view exactly once, and afterwards
    the current view is the mapped view; the same event while the gate is
    not Unlocked, or while the overlay is shown, is ignored: nothing is
    suppressed, the current view and the rest of the state are unchanged;
    an event with Ctrl, Meta or Shift held never changes the view. *)
Theorem shortcut_dispatch :
  (forall (st : State) (e : KeyboardEvent) (view : ViewMode),
      isShortcut e view -> gate st = Unlocked -> showIntro st = false ->
      handleKeyDown st e = [PreventDefault; SetCurrentView view] /\
      currentView (fst (keyDown st e)) = view /\
      keyDown st e = (setCurrentView view st, true)) /\
  (forall (st : State) (e : KeyboardEvent) (view : ViewMode),
      reachable st -> isShortcut e view ->
      gate st <> Unlocked \/ showIntro st = true ->
      handleKeyDown st e = [] /\
      currentView (fst (keyDown st e)) = currentView st /\
      keyDown st e = (st, false)) /\
  (forall (st : State) (e : KeyboardEvent),
      ctrlKey e = true \/ metaKey e = true \/ shiftKey e = true ->
      handleKeyDown st e = [] /\
      currentView (fst (keyDown st e)) = currentView st /\
      keyDown st e = (st, false)).
Proof.
  split; [| split].
  - intros st e view Hs Hg Hi.
    assert (hasApiKey st = true) as Hk.
    { unfold gate in Hg. destruct (checkingKey st); [done |].
      by destruct (hasApiKey st). }
    pose proof Hs as (Ha & Hc & Hm & Hsh & _).
    assert (handleKeyDown st e = [PreventDefault; SetCurrentView view]) as E.
    { unfold handleKeyDown. rewrite Hk, Hi, Ha, Hc, Hm, Hsh. simpl.
      destruct (isShortcut_key e view Hs) as [[-> ->] | [[-> ->] | [-> ->]]];
        reflexivity. }
    split; [exact E |]. unfold keyDown. by rewrite E.
  - intros st e view Hr Hs Hoff.
    assert (negb (hasApiKey st) || showIntro st = true) as Hd.
    { destruct Hoff as [Hg | ->]; [| by rewrite orb_true_r].
      unfold gate in Hg. destruct (checkingKey st) eqn:Hc.
      - by rewrite (reachable_checking st Hr Hc).
      - by destruct (hasApiKey st). }
    assert (handleKeyDown st e = []) as E.
    { unfold handleKeyDown. by rewrite Hd. }
    split; [exact E |]. unfold keyDown. by rewrite E.
  - intros st e Hmod.
    assert (handleKeyDown st e = []) as E.
    { unfold handleKeyDown. destruct (negb (hasApiKey st) || showIntro st); [done |].
      destruct Hmod as [-> | [-> | ->]]; simpl;
        by rewrite ?andb_false_r. }
    split; [exact E |]. unfold keyDown. by rewrite E.
Qed.

Lemma shortcut_dispatch_witness :
  let alt2 := {| altKey := true; ctrlKey := false; metaKey := false;
                 shiftKey := false; key := "2" |} in
  let ctrlAlt2 := {| altKey := true; ctrlKey := true; metaKey := false;
                     shiftKey := false; key := "2" |} in
  let locked := initialState [] [] in
  let unlocked :=
    step (step (initialState [] []) (ProbeResolved (Some true))) IntroComplete in
  (handleKeyDown unlocked alt2 = [PreventDefault; SetCurrentView REPO_ANALYZER] /\
   currentView (fst (keyDown unlocked alt2)) = REPO_ANALYZER /\
   keyDown unlocked alt2 = (setCurrentView REPO_ANALYZER unlocked, true)) /\
  (handleKeyDown locked alt2 = [] /\
   currentView (fst (keyDown locked alt2)) = currentView locked /\
   keyDown locked alt2 = (locked, false)) /\
  (handleKeyDown unlocked ctrlAlt2 = [] /\
   currentView (fst (keyDown unlocked ctrlAlt2)) = currentView unlocked /\
   keyDown unlocked ctrlAlt2 = (unlocked, false)).
Proof.
  intros alt2 ctrlAlt2 locked unlocked.
  destruct shortcut_dispatch as (H1 & H2 & H3).
  assert (isShortcut alt2 REPO_ANALYZER) as Hs.
  { repeat split. simpl. auto. }
  split; [apply H1; [exact Hs | reflexivity | reflexivity] |].
  split; [apply (H2 locked alt2 REPO_ANALYZER);
         [constructor | exact Hs | left; discriminate] |].
  apply H3. by left.
Defined.

End ShortcutFacts.

(** ** The generation handler *)
Module GenerateFacts.
Import Js JsString ArticleToInfographic.

(** What the interactions during a request leave of the state the
    handler looks at. *)
Lemma interact_fold (during : list Interaction) (s : State)
    (acc : option (list string * list Value)) :
  match acc with
  | Some (imgs, cites) => images s = imgs /\ citations s = cites
  | None => True
  end ->
  let s' := fold_left interact during s in
  let opened :=
    fold_left (fun acc i => match i with
                            | HistoryClicked _ imgs cites => Some (imgs, cites)
                            | _ => acc
                            end) during acc in
  loading s' = loading s /\ error s' = error s /\
  images s' = match opened with Some (imgs, _) => imgs | None => images s end /\
  citations s' =
    match opened with Some (_, cites) => cites | None => citations s end.
Proof.
  revert s acc. induction during as [|i during IH]; intros s acc Hacc.
  - simpl. destruct acc as [[imgs cites] |]; [| done].
    destruct Hacc as [-> ->]. done.
  - destruct i as [stage | url imgs cites | url | style | style | language
                   | n | ratio]; cbv zeta; simpl fold_left.
    2: { destruct (IH (loadFromHistory url imgs cites s) (Some (imgs, cites)))
           as (-> & -> & -> & ->); [done |].
         simpl. split; [done |]. split; [done |].
         assert (forall during',
                    exists io co,
                      fold_left (fun acc i => match i with
                                              | HistoryClicked _ imgs cites =>
                                                  Some (imgs, cites)
                                              | _ => acc
                                              end) during' (Some (imgs, cites))
                      = Some (io, co)) as Hsome.
         { clear. intros during'. revert imgs cites.
           induction during' as [|i during' IH']; intros imgs cites; [eauto |].
           simpl. destruct i; eauto. }
         destruct (Hsome during) as (io & co & ->). done. }
    all: match goal with
         | |- context [fold_left interact _ ?s0] =>
             destruct (IH s0 acc) as (-> & -> & -> & ->);
             [by destruct acc as [[? ?] |] | done]
         end.
Qed.

Lemma interact_frame (during : list Interaction) (s : State) :
  let s' := fold_left interact during s in
  loading s' = loading s /\ error s' = error s /\
  images s' =
    match lastOpened during with Some (imgs, _) => imgs | None => images s end /\
  citations s' =
    match lastOpened during with
    | Some (_, cites) => cites
    | None => citations s
    end.
Proof. by apply (interact_fold during s None). Qed.

Section Host.

Variable URL_hostname : string -> option string.

Local Abbreviation complete := (complete URL_hostname).
Local Abbreviation handleGenerate := (handleGenerate URL_hostname).


End Host.

(** C10 as stated fails: with a history entry opened while the request
    is out, a response without images ends with the error set and that
    entry's image shown. *)
Lemma stale_result_is_shown :
  let host := fun _ : string => @None string in
  let st := setUrlInput "https://a.io/x" initialState in
  let result :=
    handleGenerate host 17 18 [HistoryClicked "https://b.io" ["oldpng"] []]
      (Resolved (Some []) []) st in
  error (fst (fst result)) = Some failureMessage /\
  shownImages (fst (fst result)) = ["oldpng"] /\
  shownImages (fst (fst result)) <> [].
Proof. repeat split. discriminate. Qed.


End GenerateFacts.

(** ** The loading component: what its parts do together *)
Module LoadingComponentFacts.
Import LoadingState LoadingComponent StageFacts AnimatorFacts LogFacts.

Lemma targets_everyRender (st : Stage) (messages : list string) :
  settled st ->
  targets st messages = everyRender (targetProgress st) messages.
Proof.
  revert st. induction messages as [|m ms IH]; intros st Hst; [done |].
  simpl. rewrite (render_target st m Hst). f_equal.
  rewrite (IH _ (render_settled st m Hst)).
  by rewrite (render_target st m Hst).
Qed.

(** Skipping the effect on a render whose message did not change gives
    the same targets as running it after every render. *)
Theorem effect_deps_only_save_work (start : Q) (messages : list string) :
  targets (mount start) messages = everyRender start messages.
Proof. apply (targets_everyRender (mount start)). apply settled_mount. Qed.

Lemma smartProgress_tier (message : string) (prev : Q) :
  smartProgress message prev = 35%Q \/ smartProgress message prev = 70%Q \/
  smartProgress message prev = 98%Q \/ smartProgress message prev = prev.
Proof.
  rewrite smartProgress_matches.
  destruct (matches bucket35 message); [auto |].
  destruct (matches bucket70 message); [auto |].
  destruct (matches bucket98 message); auto.
Qed.

Lemma run_bounds (type : Kind) (ops : list Op) (c : Component) :
  isTier (targetProgress (stage c)) ->
  (0 <= progress c)%Q -> (progress c <= 98)%Q ->
  let c' := fold_left (step type) ops c in
  isTier (targetProgress (stage c')) /\
  (0 <= progress c')%Q /\ (progress c' <= 98)%Q.
Proof.
  revert c. induction ops as [|op ops IH]; intros c Ht H0 H98; [done |].
  simpl fold_left. apply IH; destruct op as [message | | o]; simpl; try done.
  - unfold render. destruct (depsChanged (stage c) message); [| done].
    simpl. destruct (smartProgress_tier message (targetProgress (stage c)))
      as [-> | [-> | [-> | ->]]]; unfold isTier; auto.
  - destruct (Qlt_le_dec (progress c) (targetProgress (stage c))) as [Hlt | Hge].
    + assert (progress c <= targetProgress (stage c))%Q as Hle by lra.
      destruct (tick_below _ _ Hle) as [Hlo Hhi]. lra.
    + destruct (tick_above _ _ Hge) as [Hlo Hhi].
      destruct Ht as [E | [E | [E | E]]]; rewrite E in Hlo |- *; lra.
  - destruct (Qlt_le_dec (progress c) (targetProgress (stage c))) as [Hlt | Hge].
    + assert (progress c <= targetProgress (stage c))%Q as Hle by lra.
      destruct (tick_below _ _ Hle) as [Hlo Hhi].
      destruct Ht as [E | [E | [E | E]]]; rewrite E in Hhi |- *; lra.
    + destruct (tick_above _ _ Hge) as [Hlo Hhi]. lra.
Qed.

(** Whatever renders, ticks and log operations a mounted component goes
    through, its target is one of 10, 35, 70, 98 and the displayed value
    stays between 0 and 98: the ring shows between 0 and 98 percent and its
    dash offset stays between 5.8 and 290. *)
Theorem progress_stays_in_range (type : Kind) (ops : list Op) :
  let c := run type ops in
  (targetProgress (stage c) = 10 \/ targetProgress (stage c) = 35 \/
   targetProgress (stage c) = 70 \/ targetProgress (stage c) = 98)%Q /\
  (0 <= progress c)%Q /\ (progress c <= 98)%Q /\
  0 <= percentComplete (progress c) <= 98 /\
  (5.8 <= strokeDashoffset (progress c))%Q /\
  (strokeDashoffset (progress c) <= 290)%Q.
Proof.
  destruct (run_bounds type ops mounted) as (Ht & H0 & H98).
  { left. reflexivity. }
  { vm_compute. discriminate. }
  { vm_compute. discriminate. }
  fold (run type ops) in Ht, H0, H98.
  intros c. subst c. split; [exact Ht |]. split; [exact H0 |].
  split; [exact H98 |]. split.
  2:{ unfold strokeDashoffset.
      assert (290 * progress (run type ops) / 100
              == 2.9 * progress (run type ops))%Q as -> by field.
      split; lra. }
  unfold percentComplete. split.
  - change 0 with (Qfloor 0). apply Qfloor_resp_le. lra.
  - change 98 with (Qfloor 98.5). apply Qfloor_resp_le. lra.
Qed.



Lemma lastFive_snoc (lines : list string) (line : string) :
  lastFive (lastFive lines ++ [line]) = lastFive (lines ++ [line]).
Proof.
  unfold lastFive. rewrite !length_app, length_drop. simpl length.
  rewrite <- (drop_app_le lines [line]) by lia.
  rewrite drop_drop. f_equal. lia.
Qed.

Lemma logTick_lastFive (type : Kind) (r1 r2 : Q) (now : Z) (prev : list string) :
  (r1 <= 0.7)%Q ->
  logTick type r1 r2 now prev =
  lastFive (prev ++ [logLine now (taskAt type (Qfloor (r2 * 9)))]).
Proof.
  intros H. rewrite logTick_append by done.
  unfold lastFive. by rewrite length_app.
Qed.

(** The window is always the last five of the lines written since the
    effect last started: eviction loses the oldest lines and nothing
    else, and keeps the order. *)
Theorem window_is_last_five_written (type : Kind) (ops : list LogOp) :
  logRun type ops = lastFive (written type ops).
Proof.
  unfold logRun, written.
  assert (forall logs lines,
             logs = lastFive lines ->
             fold_left (logStep type) ops logs =
             lastFive (fold_left (writtenStep type) ops lines)) as H.
  { induction ops as [|op ops IH]; intros logs lines E; [done |].
    simpl fold_left. apply IH. destruct op as [| r1 r2 now]; simpl.
    - by destruct type.
    - destruct (Qlt_le_dec 0.7 r1) as [Hs | Ha].
      + by rewrite logTick_skip.
      + rewrite logTick_lastFive by done. subst logs. apply lastFive_snoc. }
  by apply H.
Qed.

End LoadingComponentFacts.

(** ** The application shell: histories, gate and shortcuts over a run *)
Module AppFacts.
Import Js App AppRun.

(** Each history is the items handed to it, newest first, on top of what
    was loaded: nothing is dropped, merged or reordered, and no other event
    touches it, the other history's additions included. *)
Theorem histories_are_newest_first (events : list Event) (st : State) :
  repoHistory (runEvents st events) = rev (repoAdds events) ++ repoHistory st /\
  articleHistory (runEvents st events)
    = rev (articleAdds events) ++ articleHistory st.
Proof.
  revert st. induction events as [|ev events IH]; intros st; [done |].
  unfold runEvents. simpl fold_left. fold (runEvents (step st ev) events).
  destruct (IH (step st ev)) as [-> ->].
  assert (forall actions s,
             repoHistory (fold_left perform actions s) = repoHistory s /\
             articleHistory (fold_left perform actions s) = articleHistory s)
    as Hf.
  { induction actions as [|a actions IHa]; intros s; [done |].
    simpl. destruct (IHa (perform s a)) as [-> ->]. by destruct a. }
  destruct ev as [probe | | | | mode | e | item | item];
    try (split; reflexivity); try (by destruct probe).
  - simpl step. unfold keyDown. simpl fst.
    destruct (Hf (handleKeyDown st e) st) as [-> ->]. done.
  - unfold repoAdds, articleAdds. simpl. rewrite <- !app_assoc. done.
  - unfold repoAdds, articleAdds. simpl. rewrite <- !app_assoc. done.
Qed.

(** The gate: the probe decides between Unlocked and Locked, an absent
    bridge counting as a refusal; once the check is over the gate never
    shows Checking again, a re-authentication request locks it, a selected
    key unlocks it, and nothing else moves it. *)
Theorem gate_transitions :
  (forall st probe,
      gate (step st (ProbeResolved probe)) =
      match probe with Some true => Unlocked | _ => Locked end) /\
  (forall st ev, checkingKey st = false -> gate (step st ev) <> Checking) /\
  (forall st, checkingKey st = false ->
      gate (step st ReauthRequested) = Locked /\
      gate (step st KeySelected) = Unlocked) /\
  (forall st ev, leavesGate ev = true -> gate (step st ev) = gate st).
Proof.
  assert (forall actions s,
             checkingKey (fold_left perform actions s) = checkingKey s /\
             hasApiKey (fold_left perform actions s) = hasApiKey s) as Hf.
  { induction actions as [|a actions IHa]; intros s; [done |].
    simpl. destruct (IHa (perform s a)) as [-> ->]. by destruct a. }
  split; [| split; [| split]].
  - intros st [[|] |]; reflexivity.
  - intros st ev Hc.
    destruct ev as [[[|] |] | | | | mode | e | item | item];
      unfold gate; simpl; rewrite ?Hc; try done; try by destruct (hasApiKey st).
    unfold keyDown. simpl. destruct (Hf (handleKeyDown st e) st) as [-> ->].
    rewrite Hc. by destruct (hasApiKey st).
  - intros st Hc. unfold gate. simpl. by rewrite Hc.
  - intros st ev Hev.
    destruct ev as [probe | | | | mode | e | item | item]; try done.
    unfold gate. simpl. unfold keyDown. simpl.
    by destruct (Hf (handleKeyDown st e) st) as [-> ->].
Qed.

Lemma gate_transitions_witness :
  let st := step (initialState [] []) (ProbeResolved None) in
  gate (step st IntroComplete) <> Checking /\
  (gate (step st ReauthRequested) = Locked /\
   gate (step st KeySelected) = Unlocked) /\
  gate (step st (Navigate REPO_ANALYZER)) = gate st.
Proof.
  intros st. destruct gate_transitions as (_ & H2 & H3 & H4).
  split; [apply H2; reflexivity |].
  split; [apply H3; reflexivity | apply H4; reflexivity].
Defined.

Lemma handleKeyDown_cases (st : State) (e : KeyboardEvent) :
  handleKeyDown st e = [] \/
  exists view, handleKeyDown st e = [PreventDefault; SetCurrentView view] /\
               hasApiKey st = true /\ showIntro st = false /\
               isShortcut e view.
Proof.
  unfold handleKeyDown, isShortcut, shortcutTable.
  destruct (hasApiKey st), (showIntro st); simpl; auto.
  destruct (altKey e), (ctrlKey e), (metaKey e), (shiftKey e); simpl; auto.
  destruct (String.eqb_spec (key e) "1") as [-> | _].
  { right. exists HOME. repeat split; auto. }
  destruct (String.eqb_spec (key e) "2") as [-> | _].
  { right. exists REPO_ANALYZER. repeat split; auto. }
  destruct (String.eqb_spec (key e) "3") as [-> | _].
  { right. exists ARTICLE_INFOGRAPHIC. repeat split; auto. }
  auto.
Qed.

(** A key-down event changes nothing but the current view, and the view
    only to the one its shortcut is mapped to. *)
Theorem key_events_only_move_the_view (st : State) (e : KeyboardEvent) :
  let st' := fst (keyDown st e) in
  showIntro st' = showIntro st /\ hasApiKey st' = hasApiKey st /\
  checkingKey st' = checkingKey st /\ repoHistory st' = repoHistory st /\
  articleHistory st' = articleHistory st /\
  (st' = st \/ exists view, isShortcut e view /\ currentView st' = view).
Proof.
  unfold keyDown.
  destruct (handleKeyDown_cases st e) as [-> | (view & -> & _ & _ & Hs)];
    simpl; repeat split; eauto.
Qed.

(** The browser default is suppressed exactly when a key is accepted, the
    intro is over and the event is one of the three shortcuts; every other
    key-down event is left to the browser. *)
Theorem default_suppressed_iff (st : State) (e : KeyboardEvent) :
  snd (keyDown st e) = true <->
  hasApiKey st = true /\ showIntro st = false /\ exists view, isShortcut e view.
Proof.
  split.
  - unfold keyDown.
    destruct (handleKeyDown_cases st e) as [-> | (view & -> & Hk & Hi & Hs)];
      simpl; [done | eauto].
  - intros (Hk & Hi & view & Hs).
    destruct (ShortcutFacts.isShortcut_key e view Hs)
      as [[Hkey _] | [[Hkey _] | [Hkey _]]];
      destruct Hs as (Ha & Hct & Hm & Hsh & _);
      unfold keyDown, handleKeyDown;
      rewrite Hk, Hi, Ha, Hct, Hm, Hsh, Hkey; reflexivity.
Qed.

End AppFacts.

(** ** The history store over a real storage area *)
Module StoreFacts.
Import Js App.

Section Host.

Context {Storage : Type}.
Variable storage_getItem : Storage -> string -> Exc (option string).
Variable storage_setItem : Storage -> string -> string -> Exc Storage.
Variable JSON_parse : string -> Exc Value.
Variable JSON_stringify : list Value -> Exc string.
Variable Date_new : Value -> Exc (option Z).

Local Abbreviation World := (@World Storage).
Local Abbreviation persist := (persist storage_setItem JSON_stringify).
Local Abbreviation loadHistory :=
  (loadHistory storage_getItem JSON_parse Date_new).
Local Abbreviation mountApp :=
  (mountApp storage_getItem storage_setItem JSON_parse JSON_stringify Date_new).

Lemma loadHistory_ok (key warning : string) (w : World) :
  exists items w', loadHistory key warning w = (Ok items, w').
Proof.
  unfold App.loadHistory, tryCatch, bind, lift, getItem, console_warn, ret.
  destruct (storage_getItem (localStorage w) key) as [[text |] | e]; simpl;
    eauto.
  destruct (truthy text); simpl; eauto.
  destruct (JSON_parse text) as [parsed | e]; simpl; eauto.
  destruct (arrayMap (revive Date_new) parsed) as [items | e]; simpl; eauto.
Qed.

Lemma persist_returns (key warning : string) (history : list Value) (w : World) :
  exists w', persist key warning history w = (Ok tt, w').
Proof.
  unfold App.persist, tryCatch, bind, lift, setItem, console_warn.
  destruct (JSON_stringify history) as [text | e]; simpl; eauto.
  destruct (storage_setItem (localStorage w) key text) as [s' | e]; simpl; eauto.
Qed.

(** Mounting the application never throws, whatever the storage and the
    JSON functions do: it comes up on the home view with the intro shown,
    the gate Checking and every shortcut off, holding the two histories
    its loaders returned, the repository one loaded first. *)
Theorem mount_never_throws (w : World) :
  exists repo article w1 w2 w',
    loadHistory repoKey "Failed to load repo history from local storage" w
      = (Ok repo, w1) /\
    loadHistory articleKey
      "Failed to load article history from local storage" w1
      = (Ok article, w2) /\
    mountApp w = (Ok (initialState repo article), w') /\
    gate (initialState repo article) = Checking /\
    forall e, keyDown (initialState repo article) e
              = (initialState repo article, false).
Proof.
  destruct (loadHistory_ok repoKey
              "Failed to load repo history from local storage" w)
    as (repo & w1 & H1).
  destruct (loadHistory_ok articleKey
              "Failed to load article history from local storage" w1)
    as (article & w2 & H2).
  destruct (persist_returns repoKey
              "Failed to save repo history to local storage (likely quota exceeded)"
              repo w2) as (w3 & H3).
  destruct (persist_returns articleKey
              "Failed to save article history to local storage (likely quota exceeded)"
              article w3) as (w4 & H4).
  exists repo, article, w1, w2, w4.
  split; [exact H1 |]. split; [exact H2 |]. split; [| split; [done | done]].
  unfold App.mountApp, loadRepoHistory, loadArticleHistory.
  unfold bind at 1. rewrite H1. unfold bind at 1. rewrite H2.
  unfold persistRepo, persistArticle. simpl repoHistory. simpl articleHistory.
  unfold bind at 1. rewrite H3. unfold bind at 1. rewrite H4. reflexivity.
Qed.

End Host.

Section Area.

Import LocalStorage.

Variable JSON_parse : string -> Exc Value.
Variable JSON_stringify : list Value -> Exc string.
Variable Date_new : Value -> Exc (option Z).

(** After an append whose write goes through, the storage area holds the
    serialization of the new list under the history's key and leaves every
    other key alone, no warning is logged, and a load from that area gives
    back what JSON.parse makes of that text, with the dates revived. *)
Theorem persist_then_load (item : Value) (st : State) (w : @World Area)
    (text : string) (raws items : list Value) :
  denied (localStorage w) = false ->
  JSON_stringify (item :: repoHistory st) = Ok text ->
  (footprint (<[repoKey := text]> (entries (localStorage w)))
     <= quota (localStorage w))%nat ->
  truthy text = true ->
  JSON_parse text = Ok (VArr raws) ->
  mapExc (revive Date_new) raws = Ok items ->
  exists w',
    addRepoHistory setItem JSON_stringify item st w
      = (Ok (handleAddRepoHistory item st), w') /\
    entries (localStorage w') = <[repoKey := text]> (entries (localStorage w)) /\
    (forall key, key <> repoKey ->
                 getItem (localStorage w') key = getItem (localStorage w) key) /\
    warnings w' = warnings w /\
    loadRepoHistory getItem JSON_parse Date_new w' = (Ok items, w').
Proof.
  intros Hd Hs Hq Ht Hp Hm.
  set (area' := {| entries := <[repoKey := text]> (entries (localStorage w));
                   quota := quota (localStorage w);
                   denied := denied (localStorage w) |}).
  exists {| localStorage := area'; warnings := warnings w |}.
  assert (setItem (localStorage w) repoKey text = Ok area') as Hset.
  { unfold setItem, area'. rewrite Hd. cbv zeta. apply Nat.ltb_ge in Hq.
    rewrite Hq. reflexivity. }
  split; [| split; [done | split; [| split; [done |]]]].
  - unfold addRepoHistory, persistRepo, App.persist, tryCatch, bind, lift,
      App.setItem, ret.
    change (repoHistory (handleAddRepoHistory item st))
      with (item :: repoHistory st).
    by rewrite Hs, Hset.
  - intros key Hne. unfold getItem. simpl. rewrite Hd.
    by rewrite lookup_insert_ne.
  - unfold loadRepoHistory, App.loadHistory, tryCatch, bind, lift, App.getItem,
      ret.
    simpl localStorage. unfold getItem. simpl. rewrite Hd.
    rewrite lookup_insert_eq, Ht, Hp. simpl. by rewrite Hm.
Qed.

End Area.

Lemma persist_then_load_witness :
  let parse := fun _ : string => Ok (VArr [VObj [("date", VNum 5)]]) in
  let stringify := fun _ : list Value => @Ok string "[{}]" in
  let date := fun v : Value =>
                match v with VNum n => Ok (Some n) | _ => Ok None end in
  let w := {| localStorage :=
                {| LocalStorage.entries := {[ articleKey := "[]" ]};
                   LocalStorage.quota := 100; LocalStorage.denied := false |};
              warnings := [] |} in
  let st := initialState [] [] in
  exists w',
    addRepoHistory LocalStorage.setItem stringify (VObj []) st w
      = (Ok (handleAddRepoHistory (VObj []) st), w') /\
    LocalStorage.entries (localStorage w')
      = <[repoKey := "[{}]"]> (LocalStorage.entries (localStorage w)) /\
    (forall key, key <> repoKey ->
                 LocalStorage.getItem (localStorage w') key
                 = LocalStorage.getItem (localStorage w) key) /\
    warnings w' = warnings w /\
    loadRepoHistory LocalStorage.getItem parse date w'
      = (Ok [VObj [("date", VDate (Some 5))]], w').
Proof.
  intros parse stringify date w st.
  apply (persist_then_load parse stringify date (VObj []) st w "[{}]"
           [VObj [("date", VNum 5)]]); try reflexivity.
  vm_compute. lia.
Defined.

End StoreFacts.

(** ** The generation handler: validation, clean-up, failures *)
Module HandlerFacts.
Import Js JsString Blank ArticleToInfographic.

Lemma trimStart_allWhite (s : string) : allWhite (trimStart s) = allWhite s.
Proof.
  induction s as [|c s IH]; [done |].
  simpl. destruct (is_white c) eqn:E; [done |]. simpl. by rewrite E.
Qed.

Lemma trimStart_empty (s : string) :
  trimStart s = EmptyString <-> allWhite s = true.
Proof.
  induction s as [|c s IH]; [done |].
  simpl. destruct (is_white c); [done |]. split; discriminate.
Qed.

Lemma allWhite_rev_app (s acc : string) :
  allWhite (String.rev_app s acc) = allWhite s && allWhite acc.
Proof.
  revert acc. induction s as [|c s IH]; intros acc; [done |].
  simpl. rewrite IH. simpl. destruct (is_white c), (allWhite s); done.
Qed.

Lemma rev_app_empty (s acc : string) :
  String.rev_app s acc = EmptyString -> s = EmptyString.
Proof.
  revert acc. induction s as [|c s IH]; intros acc H; [done |].
  simpl in H. apply IH in H as Hs. subst s. discriminate.
Qed.

(** [!url.trim()] holds exactly for an input of white space only. *)
Lemma truthy_trim (s : string) : truthy (trim s) = negb (allWhite s).
Proof.
  unfold truthy, trim, String.rev.
  destruct (allWhite s) eqn:E.
  - apply trimStart_empty in E as ->. reflexivity.
  - simpl. apply negb_true_iff.
    destruct (String.eqb_spec
                (String.rev_app
                   (trimStart (String.rev_app (trimStart s) EmptyString))
                   EmptyString) EmptyString) as [H | H]; [| done].
    apply rev_app_empty in H. apply trimStart_empty in H.
    rewrite allWhite_rev_app, trimStart_allWhite, E in H. done.
Qed.

Lemma interact_sameButStage (i : Interaction) (s1 s2 : State) :
  sameButStage s1 s2 -> sameButStage (interact s1 i) (interact s2 i).
Proof.
  unfold sameButStage. intros H.
  destruct i as [stage | url imgs cites | url | style | style | language
                 | n | ratio]; [exact H | ..].
  - change (loadFromHistory url imgs cites (setLoadingStage "" s1)
            = loadFromHistory url imgs cites (setLoadingStage "" s2)).
    by rewrite H.
  - change (setUrlInput url (setLoadingStage "" s1)
            = setUrlInput url (setLoadingStage "" s2)). by rewrite H.
  - change (setSelectedStyle style (setLoadingStage "" s1)
            = setSelectedStyle style (setLoadingStage "" s2)). by rewrite H.
  - change (setCustomStyle style (setLoadingStage "" s1)
            = setCustomStyle style (setLoadingStage "" s2)). by rewrite H.
  - change (setSelectedLanguage language (setLoadingStage "" s1)
            = setSelectedLanguage language (setLoadingStage "" s2)).
    by rewrite H.
  - change (setVariationCount n (setLoadingStage "" s1)
            = setVariationCount n (setLoadingStage "" s2)). by rewrite H.
  - change (setAspectRatio ratio (setLoadingStage "" s1)
            = setAspectRatio ratio (setLoadingStage "" s2)). by rewrite H.
Qed.

Lemma stages_filtered (during : list Interaction) (s1 s2 : State) :
  sameButStage s1 s2 ->
  sameButStage (fold_left interact during s1)
    (fold_left interact (List.filter (fun i => negb (isStage i)) during) s2).
Proof.
  revert s1 s2. induction during as [|i during IH]; intros s1 s2 H; [done |].
  cbn [List.filter fold_left]. destruct (isStage i) eqn:E; cbn [negb fold_left].
  - apply IH. destruct i; try discriminate. exact H.
  - apply IH. by apply interact_sameButStage.
Qed.

Lemma only_stages_filtered (stages : list string) :
  List.filter (fun i => negb (isStage i)) (map StageReported stages) = [].
Proof. induction stages as [|x stages IH]; [done | exact IH]. Qed.

Section Host.

Variable URL_hostname : string -> option string.

Local Abbreviation handleGenerate := (handleGenerate URL_hostname).

Lemma complete_sameButStage (idNow dateNow : Z) (url : string)
    (outcome : Outcome) (s1 s2 : State) :
  sameButStage s1 s2 ->
  complete URL_hostname idNow dateNow url outcome s1
  = complete URL_hostname idNow dateNow url outcome s2.
Proof.
  unfold sameButStage. intros H.
  assert (forall s,
             complete URL_hostname idNow dateNow url outcome s
             = complete URL_hostname idNow dateNow url outcome
                 (setLoadingStage "" s)) as E.
  { intros s. unfold complete, tryBlock.
    destruct outcome as [[[|img imgs] |] cites | [| [m |]]]; reflexivity. }
  by rewrite (E s1), (E s2), H.
Qed.

(** Validation: an input of white space only (the empty input included)
    sends no request, starts no loading and leaves the shown result alone,
    setting only the inline error; any other input sends a request for the
    input as typed, untrimmed, and clears error, images and citations. *)
Theorem request_iff_not_blank (st : State) :
  (allWhite (urlInput st) = true ->
   submit st = (setError (Some "Please provide a valid URL.") st, None) /\
   forall idNow dateNow during outcome,
     handleGenerate idNow dateNow during outcome st
       = (setError (Some "Please provide a valid URL.") st, None, Ok tt)) /\
  (allWhite (urlInput st) = false ->
   exists st1 req,
     submit st = (st1, Some req) /\ reqUrl req = urlInput st /\
     loading st1 = true /\ error st1 = None /\ images st1 = [] /\
     citations st1 = [] /\ loadingStage st1 = "INITIALIZING...").
Proof.
  split; intros H.
  - assert (submit st
            = (setError (Some "Please provide a valid URL.") st, None)) as E.
    { unfold submit. by rewrite truthy_trim, H. }
    split; [exact E |]. intros idNow dateNow during outcome.
    unfold ArticleToInfographic.handleGenerate. by rewrite E.
  - unfold submit. rewrite truthy_trim, H. simpl negb. cbv iota.
    do 2 eexists. split; [reflexivity |]. done.
Qed.

(** The stage messages the service reports never change the outcome of a
    run: state, history item and result are those of the run with the
    stage reports left out, whatever else happens while the request is
    out; a run during which only stages are reported ends as the run
    during which nothing happens. *)
Theorem stages_leave_no_trace (idNow dateNow : Z) (outcome : Outcome)
    (st : State) :
  (forall during : list Interaction,
      handleGenerate idNow dateNow during outcome st
      = handleGenerate idNow dateNow
          (List.filter (fun i => negb (isStage i)) during) outcome st) /\
  (forall stages : list string,
      handleGenerate idNow dateNow (map StageReported stages) outcome st
      = handleGenerate idNow dateNow [] outcome st).
Proof.
  assert (forall during : list Interaction,
             handleGenerate idNow dateNow during outcome st
             = handleGenerate idNow dateNow
                 (List.filter (fun i => negb (isStage i)) during) outcome st)
    as H.
  { intros during. unfold ArticleToInfographic.handleGenerate.
    destruct (submit st) as [st1 [req |]]; [| done].
    apply complete_sameButStage, stages_filtered. reflexivity. }
  split; [exact H |].
  intros stages. by rewrite H, only_stages_filtered.
Qed.

(** Once a request is out, every way it can end leaves the form usable,
    whatever the user did while it was out: loading is off and the stage
    text is empty afterwards.  The handler itself fails only when the
    service rejects with null or undefined, and then no error text is shown
    at all. *)
Theorem handler_always_cleans_up (idNow dateNow : Z)
    (during : list Interaction) (outcome : Outcome) (st st' : State)
    (added : option Value) (r : Exc unit) :
  allWhite (urlInput st) = false ->
  handleGenerate idNow dateNow during outcome st = (st', added, r) ->
  loading st' = false /\ loadingStage st' = "" /\
  (r = Ok tt \/
   r = Throw TypeError /\ outcome = Rejected ThrownNullish /\
   error st' = None /\ added = None).
Proof.
  intros Hb.
  unfold ArticleToInfographic.handleGenerate, submit.
  rewrite truthy_trim, Hb. simpl negb. cbv iota.
  set (st0 := setLoadingStage "INITIALIZING..." _).
  destruct (GenerateFacts.interact_frame during st0) as (_ & He & _ & _).
  set (st1 := fold_left interact during st0) in *.
  unfold complete, tryBlock.
  destruct outcome as [[[|img imgs] |] cites | [| [m |]]]; simpl;
    intros [= <- <- <-]; (split; [done | split; [done |]]);
    first [by left | by right].
Qed.


End Host.

Lemma request_iff_not_blank_witness :
  let noHost := fun _ : string => @None string in
  let blank := setUrlInput "  " initialState in
  let typed := setUrlInput " a.io " initialState in
  (submit blank = (setError (Some "Please provide a valid URL.") blank, None) /\
   forall idNow dateNow during outcome,
     ArticleToInfographic.handleGenerate noHost idNow dateNow during
       outcome blank
     = (setError (Some "Please provide a valid URL.") blank, None, Ok tt)) /\
  (exists st1 req,
      submit typed = (st1, Some req) /\ reqUrl req = urlInput typed /\
      loading st1 = true /\ error st1 = None /\ images st1 = [] /\
      citations st1 = [] /\ loadingStage st1 = "INITIALIZING...").
Proof.
  intros noHost blank typed.
  split; [apply (request_iff_not_blank noHost blank) |
          apply (request_iff_not_blank noHost typed)];
    reflexivity.
Defined.

Lemma handler_always_cleans_up_witness :
  let noHost := fun _ : string => @None string in
  let st := setUrlInput "a.io" initialState in
  let result :=
    ArticleToInfographic.handleGenerate noHost 1 2
      [StageReported "Fetching"; HistoryClicked "b.io" ["old"] []]
      (Rejected ThrownNullish) st in
  loading (fst (fst result)) = false /\
  loadingStage (fst (fst result)) = "" /\
  (snd result = Ok tt \/
   snd result = Throw TypeError /\
   Rejected ThrownNullish = Rejected ThrownNullish /\
   error (fst (fst result)) = None /\ snd (fst result) = None).
Proof.
  intros noHost st result.
  apply (handler_always_cleans_up noHost 1 2
           [StageReported "Fetching"; HistoryClicked "b.io" ["old"] []]
           (Rejected ThrownNullish) st
           (fst (fst result)) (snd (fst result)) (snd result));
    reflexivity.
Defined.


End HandlerFacts.

(** ** The progress animation: how fast it settles *)
Module AnimatorBounds.
Import LoadingState AnimatorFacts.
Local Open Scope Q_scope.

Lemma power_succ (n : nat) :
  0.95 ^ Z.of_nat (S n) == 0.95 * 0.95 ^ Z.of_nat n.
Proof.
  rewrite Nat2Z.inj_succ. unfold Z.succ.
  rewrite Qpower_plus by (vm_compute; discriminate).
  change (0.95 ^ 1) with 0.95. ring.
Qed.

Lemma ticks_decay (T x : Q) (n : nat) :
  Qabs (T - ticks n T x) < 0.5 \/
  Qabs (T - ticks n T x) == 0.95 ^ Z.of_nat n * Qabs (T - x).
Proof.
  induction n as [|n IH].
  - right. change (ticks 0 T x) with x. change (0.95 ^ Z.of_nat 0) with 1. ring.
  - rewrite ticks_outer. set (y := ticks n T x) in *.
    destruct (Qlt_le_dec (Qabs (T - y)) 0.5) as [Hs | Hm].
    + left. by rewrite (tick_settled T y Hs).
    + destruct IH as [IH | IH]; [lra |].
      right. rewrite power_succ, (tick_moving T y Hm).
      assert (Qabs (T - (y + (T - y) * 0.05)) == 0.95 * Qabs (T - y)) as ->.
      { destruct (Qabs_cases (T - y)) as [[H0 E] | [H0 E]];
          destruct (Qabs_cases (T - (y + (T - y) * 0.05))) as [[H1 E1] | [H1 E1]];
          lra. }
      rewrite IH. ring.
Qed.



End AnimatorBounds.

(** ** Loading: which stored texts are kept *)
Module LoadFacts.
Import Js App Records.

Section Host.

Context {Storage : Type}.
Variable storage_getItem : Storage -> string -> Exc (option string).
Variable JSON_parse : string -> Exc Value.
Variable Date_new : Value -> Exc (option Z).

Local Abbreviation World := (@World Storage).
Local Abbreviation loadHistory :=
  (loadHistory storage_getItem JSON_parse Date_new).

Lemma revive_nullish (raw : Value) :
  nullish raw = true -> revive Date_new raw = Throw TypeError.
Proof. by destruct raw. Qed.

Lemma revive_record (raw : Value) :
  nullish raw = false ->
  revive Date_new raw =
  match Date_new (dateOf raw) with
  | Ok time => Ok (VObj (setProp (spread raw) "date" (VDate time)))
  | Throw e => Throw e
  end.
Proof. by destruct raw. Qed.

Lemma mapExc_fails (raws : list Value) :
  Exists (fun raw => nullish raw = true \/
                     exists e, Date_new (dateOf raw) = Throw e) raws ->
  exists e, mapExc (revive Date_new) raws = Throw e.
Proof.
  induction 1 as [raw raws [Hn | [e He]] | raw raws _ [e IH]]; simpl.
  - rewrite revive_nullish by done. eauto.
  - destruct (nullish raw) eqn:E.
    + rewrite revive_nullish by done. eauto.
    + rewrite revive_record, He by done. eauto.
  - destruct (revive Date_new raw) as [item | e']; [| eauto].
    rewrite IH. eauto.
Qed.

Lemma mapExc_records (raws : list Value) (times : list (option Z)) :
  Forall2 (fun raw time => nullish raw = false /\
                           Date_new (dateOf raw) = Ok time) raws times ->
  mapExc (revive Date_new) raws =
  Ok (zip_with (fun raw time =>
                  VObj (setProp (spread raw) "date" (VDate time)))
        raws times).
Proof.
  induction 1 as [|raw time raws times [Hn Hd] _ IH]; [done |].
  simpl. by rewrite revive_record, Hd, IH.
Qed.


(** A stored empty text is treated like a missing key: the history starts
    empty and nothing is logged, without JSON.parse being consulted. *)
Theorem empty_text_is_no_history (key warning : string) (w : World) :
  storage_getItem (localStorage w) key = Ok (Some "") ->
  loadHistory key warning w = (Ok [], w).
Proof.
  intros Hg.
  unfold App.loadHistory, tryCatch, bind, lift, getItem, console_warn, ret.
  by rewrite Hg.
Qed.

End Host.

Lemma lookupProp_setProp_other (props : list (string * Value))
    (name other : string) (v : Value) :
  other <> name -> lookupProp (setProp props name v) other = lookupProp props other.
Proof.
  intros Hne. induction props as [|[k w] props IH]; simpl.
  - destruct (String.eqb_spec name other); [congruence | done].
  - destruct (String.eqb_spec k name) as [-> |]; simpl.
    + destruct (String.eqb_spec name other); [congruence | done].
    + by rewrite IH.
Qed.

(** Reviving a stored object changes its [date] and nothing else: every
    other property reads as before, and the date reads as the Date made
    from the stored one. *)
Theorem revive_touches_only_the_date (Date_new : Value -> Exc (option Z))
    (props : list (string * Value)) (item : Value) (name : string) :
  revive Date_new (VObj props) = Ok item ->
  (exists time,
      Date_new (lookupProp props "date") = Ok time /\
      getProp item "date" = Ok (VDate time)) /\
  (name <> "date" -> getProp item name = getProp (VObj props) name).
Proof.
  unfold revive. simpl.
  destruct (Date_new (lookupProp props "date")) as [time | e];
    [| discriminate].
  intros [= <-]. simpl. split.
  - exists time. by rewrite HistoryFacts.lookupProp_setProp.
  - intros Hne. by rewrite lookupProp_setProp_other.
Qed.


Lemma empty_text_is_no_history_witness :
  let parse := fun _ : string => @Throw Value SyntaxError in
  let date := fun _ : Value => @Ok (option Z) None in
  let w := {| localStorage :=
                {| LocalStorage.entries := {[ repoKey := "" ]};
                   LocalStorage.quota := 100; LocalStorage.denied := false |};
              warnings := [] |} in
  loadHistory LocalStorage.getItem parse date repoKey "warning" w = (Ok [], w).
Proof.
  intros parse date w.
  apply (empty_text_is_no_history LocalStorage.getItem parse date).
  reflexivity.
Defined.

Lemma revive_touches_only_the_date_witness :
  let date := fun v : Value =>
                match v with VNum n => Ok (Some n) | _ => Ok None end in
  let props := [("id", VStr "7"); ("date", VNum 3); ("url", VStr "u")] in
  let item := VObj [("id", VStr "7"); ("date", VDate (Some 3)); ("url", VStr "u")] in
  (exists time,
      date (lookupProp props "date") = Ok time /\
      getProp item "date" = Ok (VDate time)) /\
  ("url" <> "date" -> getProp item "url" = getProp (VObj props) "url").
Proof.
  intros date props item.
  apply (revive_touches_only_the_date date props item "url"). reflexivity.
Defined.

End LoadFacts.
